(** * pyletterpress: the matcher, the ordered collection and the pipeline

    A shallow embedding of [pyletterpress.py] and the properties of its
    matcher ([evaluator]), of [SortedCollection], of the dictionary loader,
    of the block distributor and of the reporting and polling loops. *)

From Stdlib Require Import Ascii String QArith Qpower Lia Lqa SpecFloat.
From Equations Require Import Equations.
From stdpp Require Import gmap strings list sorting.

Close Scope Q_scope.
Local Open Scope nat_scope.

(** ** Python values and exceptions *)

(** The two exceptions the list primitives used by the program can raise. *)
Inductive exn : Type :=
| ValueError
| IndexError.

(** The outcome of a call: an exception, or a value. *)
Inductive result (A : Type) : Type :=
| Raise (e : exn)
| Ok (a : A).
Arguments Raise {A} e.
Arguments Ok {A} a.

#[global] Instance result_ret : MRet result := fun _ a => Ok a.
#[global] Instance result_bind : MBind result := fun _ _ f m =>
  match m with
  | Raise e => Raise e
  | Ok a => f a
  end.

(** [x in l] on a list: a left-to-right scan with [==]. *)
Fixpoint list_contains (x : ascii) (l : list ascii) : bool :=
  match l with
  | [] => false
  | y :: l' => if decide (y = x) then true else list_contains x l'
  end.

(** [l.index(x)]: the first position of [x], [ValueError] when there is none. *)
Fixpoint list_index (x : ascii) (l : list ascii) : result nat :=
  match l with
  | [] => Raise ValueError
  | y :: l' => if decide (y = x) then Ok 0 else i ← list_index x l'; Ok (S i)
  end.

(** [l.pop(i)]: removes and returns the item at [i], [IndexError] out of
    range.  The second component is the list object after the call. *)
Fixpoint list_pop (i : nat) (l : list ascii) : result (ascii * list ascii) :=
  match l, i with
  | [], _ => Raise IndexError
  | y :: l', 0 => Ok (y, l')
  | y :: l', S i' => '(x, l'') ← list_pop i' l'; Ok (x, y :: l'')
  end.

(** [s.count(c)]. *)
Definition count (c : ascii) (l : list ascii) : nat := count_occ ascii_dec l c.

(** The characters of a [str], in iteration order. *)
Definition chars (s : string) : list ascii := list_ascii_of_string s.

(** [len(s)] of a [str]. *)
Definition len (s : string) : nat := String.length s.

(** ** The matcher: [evaluator] *)

Module Matcher.

(** A result channel: [put] appends at the back. *)
Definition queue := list string.
Definition put (q : queue) (word : string) : queue := q ++ [word].

(** The list comprehension of [evaluator],
    [[letters.pop(letters.index(x)) for x in word if x in letters]].
    The filter [x in letters] is evaluated at each iteration on the list as
    the earlier pops left it.  Returns the list built and the final state of
    the object [letters]. *)
Fixpoint popped (word : list ascii) (letters : list ascii)
  : result (list ascii * list ascii) :=
  match word with
  | [] => Ok ([], letters)
  | x :: word' =>
      if list_contains x letters then
        i ← list_index x letters;
        '(y, letters1) ← list_pop i letters;
        '(ys, letters2) ← popped word' letters1;
        Ok (y :: ys, letters2)
      else popped word' letters
  end.

(** [evaluator(args)].  The value is the returned object ([None] or the
    word) with the states of the two mutable arguments after the call: the
    list [letters] and the queue. *)
Definition evaluator (args : string * list ascii * queue)
  : result (option string * list ascii * queue) :=
  let '(word, letters, queue) := args in
  '(taken, letters') ← popped (chars word) letters;
  let common := length taken in
  if decide (common = len word)
  then Ok (Some word, letters', put queue word)
  else Ok (None, letters', queue).

(** One batch of the tasks built by
    [[(word, letters, results) for word in words[x:x+block_size]]]
    mapped through [evaluator] in order.  Every tuple of the batch holds a
    reference to the one list object [letters] and to the one queue, so each
    call starts from the state the previous call left. *)
Fixpoint map_evaluator (block : list string) (letters : list ascii) (q : queue)
  : result (list (option string) * list ascii * queue) :=
  match block with
  | [] => Ok ([], letters, q)
  | word :: block' =>
      '(r, letters1, q1) ← evaluator (word, letters, q);
      '(rs, letters2, q2) ← map_evaluator block' letters1 q1;
      Ok (r :: rs, letters2, q2)
  end.

End Matcher.

(** ** Built-in sequence operations *)

(** [sorted(l)] for an order given by its strict comparison [lt]: Python's
    sort is stable and compares with [<] only.  Each item goes before the
    first item of the sorted rest that is not smaller than it. *)
Section Sorted.
Context {A : Type} (lt : A -> A -> bool).

Fixpoint sorted_insert (x : A) (l : list A) : list A :=
  match l with
  | [] => [x]
  | y :: l' => if lt y x then y :: sorted_insert x l' else x :: y :: l'
  end.

Definition sorted (l : list A) : list A := foldr sorted_insert [] l.

End Sorted.

(** [l.insert(i, x)]: [x] goes before position [i], at the end when [i] is
    past the end. *)
Definition list_insert_at {A : Type} (i : nat) (x : A) (l : list A) : list A :=
  take i l ++ x :: drop i l.

(** [del l[i]]: [IndexError] out of range. *)
Definition list_del {A : Type} (i : nat) (l : list A) : result (list A) :=
  if decide (i < length l) then Ok (delete i l) else Raise IndexError.

(** [l[i:j]] for [0 <= i], [0 <= j]. *)
Definition slice {A : Type} (i j : nat) (l : list A) : list A :=
  take (j - i) (drop i l).

(** [l[-n:]] for [n > 0]: the last [n] items, all of them when there are
    fewer. *)
Definition slice_last {A : Type} (n : nat) (l : list A) : list A :=
  drop (length l - n) l.

(** [xrange(start, stop, step)] for [step > 0]: the object holds its length
    [(stop - start + step - 1) / step] and yields [start + i * step]. *)
Definition xrange (start stop step : nat) : list nat :=
  (fun i => start + i * step) <$> seq 0 ((stop - start + step - 1) / step).

(** ** The dictionary *)

Module Dictionary.

(** [str.strip()]: leading and trailing whitespace removed. *)
Fixpoint lstrip (s : string) : string :=
  match s with
  | EmptyString => EmptyString
  | String a s' => if Ascii.is_space a then lstrip s' else s
  end.

Fixpoint rstrip (s : string) : string :=
  match s with
  | EmptyString => EmptyString
  | String a s' =>
      match rstrip s' with
      | EmptyString => if Ascii.is_space a then EmptyString else String a EmptyString
      | t => String a t
      end
  end.

Definition strip (s : string) : string := rstrip (lstrip s).

(** [str.lower()]: the letters [A] to [Z] mapped to [a] to [z]. *)
Definition is_upper (a : ascii) : bool :=
  (65 <=? nat_of_ascii a) && (nat_of_ascii a <=? 90).

Definition lower_char (a : ascii) : ascii :=
  if is_upper a then ascii_of_nat (nat_of_ascii a + 32) else a.

Fixpoint lower (s : string) : string :=
  match s with
  | EmptyString => EmptyString
  | String a s' => String (lower_char a) (lower s')
  end.

(** A line as iterating over the file yields it: the text and its line end. *)
Definition line (text : string) : string := text +:+ String "010"%char EmptyString.

(** The test of the generator, on the line as the file yields it. *)
Definition keep (letters : list ascii) (word : string) : bool :=
  (len word <=? length letters) && (1 <? len word).

(** [set(word.strip().lower() for word in dictionary
         if len(word) <= len(letters) and len(word) > 1)],
    [dictionary] being the lines of the file, each with its line end. *)
Definition load (dictionary : list string) (letters : list ascii) : gset string :=
  list_to_set ((fun word => lower (strip word)) <$> filter (fun word => keep letters word = true) dictionary).

(** [sorted(words, key=lambda word: len(word))]; the set is iterated in the
    order of [elements]. *)
Definition sort_words (words : gset string) : list string :=
  sorted (fun a b => len a <? len b) (elements words).

End Dictionary.

(** ** [bisect_left] and [bisect_right] of the [bisect] module *)

(** What the two searches expect of the list. *)
Definition nondecreasing (l : list nat) : Prop :=
  forall i j a b, i < j -> l !! i = Some a -> l !! j = Some b -> a <= b.

Equations? bisect_left_go (a : list nat) (x : nat) (lo hi : nat) : result nat
  by wf (hi - lo) lt :=
  bisect_left_go a x lo hi with decide (lo < hi) => {
    | right _ := Ok lo
    | left Hlt with a !! ((lo + hi) / 2) => {
        | None := Raise IndexError
        | Some v with decide (v < x) => {
            | left _ := bisect_left_go a x ((lo + hi) / 2 + 1) hi
            | right _ := bisect_left_go a x lo ((lo + hi) / 2) } } }.
Proof.
  all: assert (Hm : lo <= (lo + hi) / 2 < hi)
    by (split; [apply Nat.div_le_lower_bound | apply Nat.Div0.div_lt_upper_bound]; lia).
  all: lia.
Qed.

Definition bisect_left (a : list nat) (x : nat) : result nat :=
  bisect_left_go a x 0 (length a).

Equations? bisect_right_go (a : list nat) (x : nat) (lo hi : nat) : result nat
  by wf (hi - lo) lt :=
  bisect_right_go a x lo hi with decide (lo < hi) => {
    | right _ := Ok lo
    | left Hlt with a !! ((lo + hi) / 2) => {
        | None := Raise IndexError
        | Some v with decide (x < v) => {
            | left _ := bisect_right_go a x lo ((lo + hi) / 2)
            | right _ := bisect_right_go a x ((lo + hi) / 2 + 1) hi } } }.
Proof.
  all: assert (Hm : lo <= (lo + hi) / 2 < hi)
    by (split; [apply Nat.div_le_lower_bound | apply Nat.Div0.div_lt_upper_bound]; lia).
  all: lia.
Qed.

Definition bisect_right (a : list nat) (x : nat) : result nat :=
  bisect_right_go a x 0 (length a).

(** ** [SortedCollection] *)

Module SortedCollection.
Section Class.
Context {item : Type} `{!EqDecision item}.
(** The key function, and [<] on items, which [sorted] falls back on when
    the keys of two decorated pairs are equal. *)
Context (key : item -> nat) (item_lt : item -> item -> bool).

Record t : Type := Build { _keys : list nat; _items : list item }.

(** [<] on the pairs [(key(item), item)]. *)
Definition pair_lt (p q : nat * item) : bool :=
  (p.1 <? q.1) || ((p.1 =? q.1) && item_lt p.2 q.2).

(** The cache of keys is the keys of the items, position by position. *)
Definition keys_cached (self : t) : Prop := _keys self = key <$> _items self.

(** The sort invariant: the keys of the items never decrease along the
    collection. *)
Definition sort_invariant (self : t) : Prop :=
  forall i j x y, i < j ->
    _items self !! i = Some x -> _items self !! j = Some y -> key x <= key y.

(** [__init__(self, iterable, key)]. *)
Definition init (iterable : list item) : t :=
  let decorated := sorted pair_lt ((fun item => (key item, item)) <$> iterable) in
  {| _keys := fst <$> decorated; _items := snd <$> decorated |}.

Definition __len__ (self : t) : nat := length (_items self).

Definition __reversed__ (self : t) : list item := rev (_items self).

(** [index(self, item)]: [self._items[i:j].index(item) + i]. *)
Fixpoint index_of (x : item) (l : list item) : result nat :=
  match l with
  | [] => Raise ValueError
  | y :: l' => if decide (y = x) then Ok 0 else i ← index_of x l'; Ok (S i)
  end.

Definition index (self : t) (x : item) : result nat :=
  let k := key x in
  i ← bisect_left (_keys self) k;
  j ← bisect_right (_keys self) k;
  n ← index_of x (slice i j (_items self));
  Ok (n + i).

(** [insert(self, item)], statement by statement: [insert_keys] is the
    object after [self._keys.insert(i, k)], [insert] the object after
    [self._items.insert(i, item)]. *)
Definition insert_keys (self : t) (x : item) : result (nat * t) :=
  let k := key x in
  i ← bisect_left (_keys self) k;
  Ok (i, {| _keys := list_insert_at i k (_keys self); _items := _items self |}).

Definition insert (self : t) (x : item) : result t :=
  '(i, self1) ← insert_keys self x;
  Ok {| _keys := _keys self1; _items := list_insert_at i x (_items self1) |}.

Definition insert_right_keys (self : t) (x : item) : result (nat * t) :=
  let k := key x in
  i ← bisect_right (_keys self) k;
  Ok (i, {| _keys := list_insert_at i k (_keys self); _items := _items self |}).

Definition insert_right (self : t) (x : item) : result t :=
  '(i, self1) ← insert_right_keys self x;
  Ok {| _keys := _keys self1; _items := list_insert_at i x (_items self1) |}.

(** [remove(self, item)]: [remove_keys] is the object after
    [del self._keys[i]]. *)
Definition remove_keys (self : t) (x : item) : result (nat * t) :=
  i ← index self x;
  keys' ← list_del i (_keys self);
  Ok (i, {| _keys := keys'; _items := _items self |}).

Definition remove (self : t) (x : item) : result t :=
  '(i, self1) ← remove_keys self x;
  items' ← list_del i (_items self1);
  Ok {| _keys := _keys self1; _items := items' |}.

(** The collections a program can hold: built by the constructor, then
    changed by the operations that return normally. *)
Inductive reachable : t -> Prop :=
| reachable_init iterable : reachable (init iterable)
| reachable_insert self x self' :
    reachable self -> insert self x = Ok self' -> reachable self'
| reachable_insert_right self x self' :
    reachable self -> insert_right self x = Ok self' -> reachable self'
| reachable_remove self x self' :
    reachable self -> remove self x = Ok self' -> reachable self'.

(** [item in l] and [l.count(item)] on a list of items. *)
Fixpoint item_in (x : item) (l : list item) : bool :=
  match l with
  | [] => false
  | y :: l' => if decide (y = x) then true else item_in x l'
  end.

Fixpoint count_of (x : item) (l : list item) : nat :=
  match l with
  | [] => 0
  | y :: l' => if decide (y = x) then S (count_of x l') else count_of x l'
  end.

(** [l[i]] for [0 <= i]: [IndexError] out of range. *)
Definition getitem {A : Type} (l : list A) (i : nat) : result A :=
  match l !! i with
  | Some x => Ok x
  | None => Raise IndexError
  end.

(** [__getitem__(self, i)] for [0 <= i] and [__iter__(self)]. *)
Definition __getitem__ (self : t) (i : nat) : result item :=
  getitem (_items self) i.

Definition __iter__ (self : t) : list item := _items self.

(** [clear(self)] and [copy(self)]: both go through [__init__]. *)
Definition clear (self : t) : t := init [].

Definition copy (self : t) : t := init (__iter__ self).

(** [__contains__(self, item)]: [item in self._items[i:j]]. *)
Definition __contains__ (self : t) (x : item) : result bool :=
  let k := key x in
  i ← bisect_left (_keys self) k;
  j ← bisect_right (_keys self) k;
  Ok (item_in x (slice i j (_items self))).

(** [count(self, item)]: [self._items[i:j].count(item)]. *)
Definition count (self : t) (x : item) : result nat :=
  let k := key x in
  i ← bisect_left (_keys self) k;
  j ← bisect_right (_keys self) k;
  Ok (count_of x (slice i j (_items self))).

(** [find(self, k)]: the test is
    [i != len(self) and self._keys[i] == k]. *)
Definition find (self : t) (k : nat) : result item :=
  i ← bisect_left (_keys self) k;
  if decide (i <> __len__ self) then
    k' ← getitem (_keys self) i;
    if decide (k' = k) then getitem (_items self) i else Raise ValueError
  else Raise ValueError.

(** [find_le(self, k)] and [find_lt(self, k)]: [if i: return
    self._items[i-1]]. *)
Definition find_le (self : t) (k : nat) : result item :=
  i ← bisect_right (_keys self) k;
  if decide (i <> 0) then getitem (_items self) (i - 1) else Raise ValueError.

Definition find_lt (self : t) (k : nat) : result item :=
  i ← bisect_left (_keys self) k;
  if decide (i <> 0) then getitem (_items self) (i - 1) else Raise ValueError.

(** [find_ge(self, k)] and [find_gt(self, k)]: [if i != len(self): return
    self._items[i]]. *)
Definition find_ge (self : t) (k : nat) : result item :=
  i ← bisect_left (_keys self) k;
  if decide (i <> __len__ self) then getitem (_items self) i
  else Raise ValueError.

Definition find_gt (self : t) (k : nat) : result item :=
  i ← bisect_right (_keys self) k;
  if decide (i <> __len__ self) then getitem (_items self) i
  else Raise ValueError.

End Class.
Arguments t : clear implicits.
End SortedCollection.

(** ** Python floats *)

(** A [float] is an IEEE 754 binary64 number: the [spec_float] of the
    standard library at a precision of 53 bits and with [emax = 1024], whose
    operations round to nearest, ties to even. *)
#[global] Instance spec_float_eq_dec : EqDecision spec_float.
Proof. solve_decision. Defined.

Module Float.

Definition prec : Z := 53.
Definition emax : Z := 1024.

(** [float(x)] for an [int] [x >= 0]: exact below [2 ** 53]. *)
Definition of_int (x : nat) : spec_float :=
  binary_normalize prec emax (Z.of_nat x) 0 false.

(** [a / b], [a * b], [a < b] and [a <= b] on floats. *)
Definition div (a b : spec_float) : spec_float := SFdiv prec emax a b.
Definition mul (a b : spec_float) : spec_float := SFmul prec emax a b.
Definition ltb (a b : spec_float) : bool := SFltb a b.
Definition leb (a b : spec_float) : bool := SFleb a b.

(** [x / n] on two [int]s under [from __future__ import division], for
    [n != 0]: two [int]s below [2 ** 53], as an index and the length of a
    list are, are converted to floats, exactly, and the floats divided, which
    rounds the quotient of the two integers once. *)
Definition truediv (x n : nat) : spec_float := div (of_int x) (of_int n).

(** [2 ** e] and the rational value of a float that is a number. *)
Definition pow2 (e : Z) : Q := Qpower (2 # 1) e.

Definition value (f : spec_float) : Q :=
  match f with
  | S754_finite s m e =>
      ((if s then inject_Z (Zneg m) else inject_Z (Zpos m)) * pow2 e)%Q
  | _ => 0%Q
  end.

End Float.

(** What the proofs about rounding say of a double: where a value lies
    between two consecutive mantissas, and which doubles are normal. *)
Module FloatSpec.
Import Float.
Local Open Scope Z_scope.

(** Position of a scaled value [w] relative to the integer [m], as the
    rounding functions record it. *)
Definition located (m : Z) (l : location) (w : Q) : Prop :=
  match l with
  | loc_Exact => (w == inject_Z m)%Q
  | loc_Inexact Lt => (inject_Z m < w /\ w < inject_Z m + (1 # 2))%Q
  | loc_Inexact Eq => (w == inject_Z m + (1 # 2))%Q
  | loc_Inexact Gt => (inject_Z m + (1 # 2) < w /\ w < inject_Z m + 1)%Q
  end.

(** [v] is at the position the record says, in units of [2 ^ e]. *)
Definition inbetween (mrs : shr_record) (e : Z) (v : Q) : Prop :=
  located (shr_m mrs) (loc_of_shr_record mrs) (v * pow2 (- e)).

(** A positive normal double: 53 significant bits. *)
Definition normal (f : spec_float) : Prop :=
  match f with
  | S754_finite false m e => 2 ^ 52 <= Zpos m < 2 ^ 53 /\ -1074 <= e <= 971
  | _ => False
  end.

(** The unit roundoff [2 ^ -53]. *)
Definition u : Q := pow2 (-53).

End FloatSpec.

(** ** Log records *)

(** One constructor per message of the program, with the values formatted
    into it. *)
Inductive log_record : Type :=
| WorkingWith (letters : list ascii)
| EvaluationAgainst (n : nat)
| SortingWords
| CreatingWorkerPool
| PercentComplete (sample : spec_float)
| TopWords (n : nat) (top : list string)
| ExitingApplication
| BestWords (words : list string)
| NoLettersSupplied.

(** ** The reporter: [top_words] *)

Module Reporter.

(** [item in top] on a list of words. *)
Fixpoint word_in (x : string) (l : list string) : bool :=
  match l with
  | [] => false
  | y :: l' => if decide (y = x) then true else word_in x l'
  end.

(** [0 in flags] on a list of booleans: [False == 0] and [True != 0]. *)
Fixpoint zero_in (flags : list bool) : bool :=
  match flags with
  | [] => false
  | b :: flags' => if b then zero_in flags' else true
  end.

(** [list(reversed(sorted_set[-10:]))]. *)
Definition candidate (sorted_set : SortedCollection.t string) : list string :=
  rev (slice_last 10 (SortedCollection._items sorted_set)).

(** One iteration of the loop of [top_words]: the new value of [top] and the
    record logged, if any. *)
Definition top_words_iter (sorted_set : SortedCollection.t string) (top : list string)
  : list string * option log_record :=
  if decide (0 < SortedCollection.__len__ sorted_set) then
    let test := candidate sorted_set in
    if zero_in ((fun item => word_in item top) <$> test)
    then (test, Some (TopWords (SortedCollection.__len__ sorted_set) test))
    else (top, None)
  else (top, None).

End Reporter.

(** ** The distributor: the [for] loop over the blocks *)

Module Distributor.

Definition block_size : nat := 1000.

(** What one iteration does, in order. *)
Inductive event : Type :=
| PutComplete (sample : spec_float)
| MapAsync (block : list string).

(** [x/len(words) * 100] under [from __future__ import division]: the
    true division of the two [int]s gives a float, which is multiplied by
    [100] converted to a float.  Inside the loop [len(words)] is not zero. *)
Definition sample (x n : nat) : spec_float :=
  Float.mul (Float.truediv x n) (Float.of_int 100).

Definition iteration (words : list string) (x : nat) : list event :=
  [PutComplete (sample x (length words));
   MapAsync (slice x (x + block_size) words)].

Definition distribute (words : list string) : list event :=
  x ← xrange 0 (length words) block_size; iteration words x.

(** The samples put on the progress channel, in order. *)
Definition samples (words : list string) : list spec_float :=
  omap (fun e => match e with PutComplete v => Some v | MapAsync _ => None end)
       (distribute words).

End Distributor.

(** ** The pipeline: main thread, pool workers and the three daemon threads *)

Module Pipeline.
Import Matcher.

(** Where the main thread is. *)
Inductive pc : Type :=
| Distributing (xs : list nat)
| Polling
| Finished.

Record state : Type := Build {
  letters : list ascii;
  words : list string;
  main_pc : pc;
  pending : list string;
  results : queue;
  complete : list spec_float;
  best_words : SortedCollection.t string;
  top : list string;
  done : bool;
  log : list log_record
}.

(** The schedulable steps.  [Work n l] is a pool worker evaluating the [n]th
    pending task on its copy of [letters], which is in the state [l]. *)
Inductive action : Type :=
| Main
| Work (n : nat) (l : list ascii)
| Collect
| Percent
| TopPrint
| Interrupt.

Definition key (word : string) : nat := len word.

(** A worker's copy of the rack only ever loses letters. *)
Definition sub_letters (l rack : list ascii) : bool :=
  forallb (fun c => count c l <=? count c rack) l.

(** [pool.terminate()] and the last record. *)
Definition finish (s : state) (records : list log_record) : state :=
  {| letters := letters s; words := words s; main_pc := Finished;
     pending := pending s; results := results s; complete := complete s;
     best_words := best_words s; top := top s; done := done s;
     log := log s ++ records ++
            [BestWords (SortedCollection.__reversed__ (best_words s))] |}.

(** The main thread: an iteration of the [for] loop, then [pool.close()] and
    [done = False], then the iterations of the [while not done] loop. *)
Definition main_step (s : state) : option state :=
  match main_pc s with
  | Distributing (x :: xs) =>
      Some {| letters := letters s; words := words s;
              main_pc := Distributing xs;
              pending := pending s ++ slice x (x + Distributor.block_size) (words s);
              results := results s;
              complete := complete s ++ [Distributor.sample x (length (words s))];
              best_words := best_words s; top := top s; done := done s;
              log := log s |}
  | Distributing [] =>
      Some {| letters := letters s; words := words s; main_pc := Polling;
              pending := pending s; results := results s;
              complete := complete s; best_words := best_words s;
              top := top s; done := false; log := log s |}
  | Polling =>
      if done s then Some (finish s [])
      else if bool_decide (1 < SortedCollection.__len__ (best_words s))
                && bool_decide (results s = [])
                && bool_decide (complete s = [])
      then Some {| letters := letters s; words := words s; main_pc := Polling;
                   pending := pending s; results := results s;
                   complete := complete s; best_words := best_words s;
                   top := top s; done := true; log := log s |}
      else Some s
  | Finished => None
  end.

(** A pool worker: [evaluator] on one task. *)
Definition work_step (n : nat) (l : list ascii) (s : state) : option state :=
  match pending s !! n with
  | Some word =>
      if sub_letters l (letters s) then
        match evaluator (word, l, results s) with
        | Ok (_, _, q) =>
            Some {| letters := letters s; words := words s; main_pc := main_pc s;
                    pending := delete n (pending s); results := q;
                    complete := complete s; best_words := best_words s;
                    top := top s; done := done s; log := log s |}
        | Raise _ =>
            Some {| letters := letters s; words := words s; main_pc := main_pc s;
                    pending := delete n (pending s); results := results s;
                    complete := complete s; best_words := best_words s;
                    top := top s; done := done s; log := log s |}
        end
      else None
  | None => None
  end.

(** [result_collector]: one iteration. *)
Definition collect_step (s : state) : option state :=
  match results s with
  | [] => Some s
  | word :: q =>
      match SortedCollection.insert key (best_words s) word with
      | Ok best =>
          Some {| letters := letters s; words := words s; main_pc := main_pc s;
                  pending := pending s; results := q; complete := complete s;
                  best_words := best; top := top s; done := done s;
                  log := log s |}
      | Raise _ => None
      end
  end.

(** [percent_reporter]: one iteration; [complete.get()] waits for a sample. *)
Definition percent_step (s : state) : option state :=
  match complete s with
  | [] => None
  | v :: c =>
      Some {| letters := letters s; words := words s; main_pc := main_pc s;
              pending := pending s; results := results s; complete := c;
              best_words := best_words s; top := top s; done := done s;
              log := log s ++ [PercentComplete v] |}
  end.

(** [top_words]: one iteration. *)
Definition top_step (s : state) : option state :=
  let '(top', record) := Reporter.top_words_iter (best_words s) (top s) in
  Some {| letters := letters s; words := words s; main_pc := main_pc s;
          pending := pending s; results := results s; complete := complete s;
          best_words := best_words s; top := top'; done := done s;
          log := log s ++ option_list record |}.

(** [KeyboardInterrupt] is caught inside the [while] loop only. *)
Definition interrupt_step (s : state) : option state :=
  match main_pc s with
  | Polling => Some (finish s [ExitingApplication])
  | _ => None
  end.

(** After [pool.terminate()] and the exit of the main thread nothing runs:
    the workers are killed and the threads are daemons. *)
Definition step (s : state) (a : action) : option state :=
  match main_pc s with
  | Finished => None
  | _ =>
      match a with
      | Main => main_step s
      | Work n l => work_step n l s
      | Collect => collect_step s
      | Percent => percent_step s
      | TopPrint => top_step s
      | Interrupt => interrupt_step s
      end
  end.

Fixpoint run (s : state) (schedule : list action) : option state :=
  match schedule with
  | [] => Some s
  | a :: schedule' =>
      match step s a with
      | Some s' => run s' schedule'
      | None => None
      end
  end.

(** The body of [if __name__ == '__main__'] up to the start of the threads:
    the records logged, and the state the pipeline starts in, if it starts.
    [argv] is [sys.argv], [dictionary] the lines of [wordsEn.txt]. *)
Definition main (argv : list string) (dictionary : list string)
  : list log_record * option state :=
  if decide (1 < length argv) then
    match argv !! 1 with
    | Some (String a rest) =>
        let letters := chars (String a rest) in
        let words0 := Dictionary.load dictionary letters in
        let words := Dictionary.sort_words words0 in
        let records := [WorkingWith letters; EvaluationAgainst (size words0);
                        SortingWords; CreatingWorkerPool] in
        (records,
         Some {| letters := letters; words := words;
                 main_pc := Distributing (xrange 0 (length words) Distributor.block_size);
                 pending := []; results := []; complete := [];
                 best_words := SortedCollection.init key String.ltb [];
                 top := []; done := false; log := records |})
    | _ => ([], None)
    end
  else ([NoLettersSupplied], None).

(** A word that the rack can spell. *)
Definition fits (rack : list ascii) (word : string) : bool :=
  forallb (fun c => count c (chars word) <=? count c rack) (chars word).

(** The number of words of a list that the rack can spell. *)
Definition fit_count (rack : list ascii) (ws : list string) : nat :=
  length (filter (fun w => fits rack w = true) ws).

(** The words of the blocks that the [for] loop has not reached yet. *)
Definition undistributed (s : state) : list string :=
  match main_pc s with
  | Distributing xs =>
      xs ≫= (fun x => slice x (x + Distributor.block_size) (words s))
  | _ => []
  end.

(** The words collected, plus those that may still be: the ones on the
    result channel and the words not yet evaluated that the rack can spell. *)
Definition potential (s : state) : nat :=
  SortedCollection.__len__ (best_words s) + length (results s)
  + fit_count (letters s) (pending s)
  + fit_count (letters s) (undistributed s).

(** What holds of every state of a run that is not interrupted. *)
Definition invariant (bound : nat) (s : state) : Prop :=
  potential s <= bound /\
  (done s = true -> 1 < SortedCollection.__len__ (best_words s)) /\
  (main_pc s = Finished -> done s = true) /\
  (forall ws, BestWords ws ∈ log s -> main_pc s = Finished).

(** The words on their way: collected, on the result channel, waiting in
    the pool, and not yet submitted. *)
Definition in_flight (s : state) : list string :=
  SortedCollection._items (best_words s) ++ results s ++ pending s
  ++ undistributed s.

(** The percentages logged, in order, and the samples that the [for] loop
    has still to put. *)
Definition percents (records : list log_record) : list spec_float :=
  omap (fun r => match r with PercentComplete v => Some v | _ => None end) records.

Definition samples_to_come (s : state) : list spec_float :=
  match main_pc s with
  | Distributing xs => (fun x => Distributor.sample x (length (words s))) <$> xs
  | _ => []
  end.

(** What holds of every state of a run on the rack [rack] and the sorted
    words [words0], interrupted or not. *)
Definition sound (rack : list ascii) (words0 : list string) (s : state) : Prop :=
  letters s = rack /\ words s = words0 /\
  SortedCollection.reachable key String.ltb (best_words s) /\
  in_flight s ⊆+ words0 /\
  Forall (fun w => fits rack w = true)
         (SortedCollection._items (best_words s) ++ results s) /\
  (forall ws, BestWords ws ∈ log s ->
     main_pc s = Finished /\ ws = SortedCollection.__reversed__ (best_words s)) /\
  percents (log s) ++ complete s ++ samples_to_come s = Distributor.samples words0.

End Pipeline.

(** ** Properties of the list primitives *)

Lemma list_contains_In x l : list_contains x l = true <-> In x l.
Proof.
  induction l as [|y l IH]; simpl.
  - split; [discriminate | tauto].
  - destruct (decide (y = x)) as [->|Hne].
    + split; auto.
    + rewrite IH. split; [auto | intros [H|H]; [contradiction | exact H]].
Qed.

Lemma count_not_In x l : list_contains x l = false -> count x l = 0.
Proof.
  intros H. apply count_occ_not_In. intros HIn.
  apply list_contains_In in HIn. congruence.
Qed.

(** Under the guard [x in letters], [letters.index(x)] finds a position and
    [letters.pop] at that position removes one [x] and nothing else. *)
Lemma index_pop_guarded x l :
  list_contains x l = true ->
  exists i l', list_index x l = Ok i /\ list_pop i l = Ok (x, l') /\
    forall c, count c l = count c l' + (if decide (c = x) then 1 else 0).
Proof.
  induction l as [|y l IH]; simpl; [discriminate|].
  destruct (decide (y = x)) as [->|Hne]; intros H.
  - exists 0, l. repeat split. intros c. unfold count. simpl.
    destruct (ascii_dec x c) as [->|Hc].
    + rewrite decide_True by reflexivity. lia.
    + rewrite decide_False by congruence. lia.
  - destruct (IH H) as (i & l' & Hi & Hp & Hc).
    exists (S i), (y :: l'). rewrite Hi. simpl. rewrite Hp. simpl.
    repeat split. intros c. specialize (Hc c). unfold count in *. simpl.
    destruct (ascii_dec y c); lia.
Qed.

Section MatcherFacts.
Import Matcher.

(** What the comprehension computes: it never raises, takes at most one
    letter per character, and takes one for every character exactly when the
    word is a sub-multiset of the letters. *)
Lemma popped_spec word : forall letters,
  exists taken letters',
    popped word letters = Ok (taken, letters') /\
    length taken <= length word /\
    (length taken = length word <->
     forall c, count c word <= count c letters).
Proof.
  induction word as [|x word IH]; intros letters; simpl.
  - exists [], letters. repeat split; auto. intros _ c. unfold count. simpl. lia.
  - destruct (list_contains x letters) eqn:Hin.
    + destruct (index_pop_guarded _ _ Hin) as (i & l1 & Hi & Hp & Hc).
      destruct (IH l1) as (taken & l2 & Hpop & Hle & Hiff).
      exists (x :: taken), l2. rewrite Hi. simpl. rewrite Hp. simpl.
      rewrite Hpop. simpl. split; [reflexivity|]. split; [lia|].
      split.
      * intros Hlen c. assert (Hl : length taken = length word) by lia.
        apply Hiff with (c := c) in Hl. rewrite (Hc c).
        unfold count in *. simpl.
        destruct (ascii_dec x c) as [->|Hne].
        -- rewrite decide_True by reflexivity. lia.
        -- rewrite decide_False by congruence. lia.
      * intros Hall. f_equal. apply Hiff. intros c.
        specialize (Hall c). rewrite (Hc c) in Hall.
        unfold count in *. simpl in Hall.
        destruct (ascii_dec x c) as [->|Hne].
        -- rewrite decide_True in Hall by reflexivity. lia.
        -- rewrite decide_False in Hall by congruence. lia.
    + destruct (IH letters) as (taken & l2 & Hpop & Hle & Hiff).
      exists taken, l2. split; [exact Hpop|]. split; [lia|].
      split; [lia|]. intros Hall. specialize (Hall x).
      rewrite (count_not_In _ _ Hin) in Hall.
      unfold count in Hall. simpl in Hall.
      destruct (ascii_dec x x); [lia | congruence].
Qed.

Lemma length_chars s : length (chars s) = len s.
Proof. induction s; simpl; auto. Qed.

End MatcherFacts.

(** ** The matcher *)

Section MatcherTheorems.
Import Matcher.

(** [evaluator] in terms of [popped]. *)
Lemma evaluator_popped word letters q taken letters' :
  popped (chars word) letters = Ok (taken, letters') ->
  evaluator (word, letters, q) =
    if decide (length taken = len word)
    then Ok (Some word, letters', put q word)
    else Ok (None, letters', q).
Proof. intros H. unfold evaluator. rewrite H. reflexivity. Qed.

(** C1: on a fresh copy of the rack's letters, [evaluator] returns the word
    and puts it on the queue exactly when every character of the word occurs
    in the word at most as often as in the rack; otherwise it returns [None]
    and leaves the queue as it is.  It returns the word exactly when its
    comprehension has taken a letter for every character. *)
Theorem evaluator_submultiset (w r : string) (q : queue) :
  ((exists letters', evaluator (w, chars r, q) = Ok (Some w, letters', put q w))
   <-> (forall c, In c (chars w) -> count c (chars w) <= count c (chars r))) /\
  ((exists letters', evaluator (w, chars r, q) = Ok (None, letters', q))
   <-> ~ (forall c, In c (chars w) -> count c (chars w) <= count c (chars r))) /\
  (exists taken letters',
      popped (chars w) (chars r) = Ok (taken, letters') /\
      (length taken = len w <->
       evaluator (w, chars r, q) = Ok (Some w, letters', put q w))).
Proof.
  destruct (popped_spec (chars w) (chars r)) as (taken & l' & Hpop & _ & Hiff).
  rewrite length_chars in Hiff.
  pose proof (evaluator_popped w (chars r) q taken l' Hpop) as Hev.
  assert (Hall : (forall c, count c (chars w) <= count c (chars r)) <->
                 (forall c, In c (chars w) -> count c (chars w) <= count c (chars r))).
  { split; [intros H c _; apply H|]. intros H c.
    destruct (in_dec ascii_dec c (chars w)) as [Hin|Hnin]; [auto|].
    unfold count. rewrite (proj1 (count_occ_not_In ascii_dec _ _) Hnin). lia. }
  rewrite <- Hall, <- Hiff. rewrite Hev.
  destruct (decide (length taken = len w)) as [Hlen|Hlen].
  - split; [split; [auto | eauto]|]. split.
    + split; [intros [l1 H]; discriminate H | contradiction].
    + exists taken, l'. split; [exact Hpop|]. split; auto.
  - split; [split; [intros [l1 H]; discriminate H | contradiction]|]. split.
    + split; [auto | eauto].
    + exists taken, l'. split; [exact Hpop|].
      split; [contradiction | intros H; discriminate H].
Qed.

(** C10: a call of [evaluator] returns, without raising, the word or
    [None]; [index] and [pop] run under the guard [x in letters], where
    they find the letter. *)
Theorem evaluator_never_raises (word : string) (letters : list ascii) (q : queue) :
  exists r letters' q',
    evaluator (word, letters, q) = Ok (r, letters', q') /\
    (r = Some word \/ r = None).
Proof.
  destruct (popped_spec (chars word) letters) as (taken & l' & Hpop & _ & _).
  rewrite (evaluator_popped _ _ _ _ _ Hpop).
  destruct (decide (length taken = len word)).
  - exists (Some word), l', (put q word). auto.
  - exists None, l', q. auto.
Qed.

(** C2, on the rack [cats]: the call for [at] leaves the list it was given
    as [c], [s]; the next call on that list rejects [cat], which a call on
    a fresh copy of the rack accepts; so a batch sharing the list loses
    [cat]. *)
Theorem evaluator_mutates_letters :
  evaluator ("at", chars "cats", []) = Ok (Some "at", chars "cs", ["at"]) /\
  evaluator ("cat", chars "cs", ["at"]) = Ok (None, chars "s", ["at"]) /\
  evaluator ("cat", chars "cats", ["at"]) = Ok (Some "cat", chars "s", ["at"; "cat"]) /\
  map_evaluator ["at"; "cat"] (chars "cats") [] = Ok ([Some "at"; None], chars "s", ["at"]).
Proof. repeat split; vm_compute; reflexivity. Qed.

End MatcherTheorems.

(** ** The dictionary *)

Section DictionaryTheorems.
Import Dictionary.

(** Membership in the loaded set. *)
Lemma elem_of_load dictionary letters w :
  w ∈ load dictionary letters <->
  exists l, l ∈ dictionary /\ keep letters l = true /\ w = lower (strip l).
Proof.
  unfold load. rewrite elem_of_list_to_set, list_elem_of_fmap.
  split.
  - intros (l & -> & Hl). apply list_elem_of_filter in Hl as [Hk Hl]. eauto.
  - intros (l & Hl & Hk & ->). exists l. split; [reflexivity|].
    apply list_elem_of_filter. auto.
Qed.

(** C3, on the rack [cat] and the file of the two lines [a] and [cat]: the
    length tested is the one of the line with its line end, so [a], of
    length 1, is loaded and [cat], of the length of the rack, is not. *)
Theorem load_tests_raw_line :
  elements (load [line "a"; line "cat"] (chars "cat")) = ["a"] /\
  ("a" ∈ load [line "a"; line "cat"] (chars "cat")) /\
  ("cat" ∉ load [line "a"; line "cat"] (chars "cat")) /\
  lower (strip (line "cat")) = "cat" /\
  len "a" = 1 /\ len "cat" = length (chars "cat").
Proof.
  assert (H : elements (load [line "a"; line "cat"] (chars "cat")) = ["a"])
    by (vm_compute; reflexivity).
  split; [exact H|].
  split; [apply elem_of_elements; rewrite H; apply list_elem_of_here|].
  split.
  - rewrite <- elem_of_elements, H. intros Hc.
    apply list_elem_of_singleton in Hc. discriminate Hc.
  - repeat split; vm_compute; reflexivity.
Qed.

End DictionaryTheorems.

(** ** The two binary searches *)

Lemma mid_bounds lo hi : lo < hi -> lo <= (lo + hi) / 2 < hi.
Proof.
  intros H.
  split; [apply Nat.div_le_lower_bound | apply Nat.Div0.div_lt_upper_bound]; lia.
Qed.

(** [bisect_left] on a sorted list: the result splits the searched range
    into the keys below [x] and the keys not below it. *)
Lemma bisect_left_go_spec a x lo hi :
  nondecreasing a -> lo <= hi -> hi <= length a ->
  (forall j v, j < lo -> a !! j = Some v -> v < x) ->
  (forall j v, hi <= j -> a !! j = Some v -> x <= v) ->
  exists i, bisect_left_go a x lo hi = Ok i /\ lo <= i <= hi /\
    (forall j v, j < i -> a !! j = Some v -> v < x) /\
    (forall j v, i <= j -> a !! j = Some v -> x <= v).
Proof.
  funelim (bisect_left_go a x lo hi); intros Hs Hle Hhi Hlo Hup;
    try (match goal with H : lo < hi |- _ => pose proof (mid_bounds _ _ H) as Hm end).
  - exists lo. repeat split; auto; try lia. intros j v Hj. apply Hup. lia.
  - match goal with H : _ !! _ = None |- _ => apply lookup_ge_None in H; lia end.
  - match goal with H : _ !! _ = Some _ |- _ => rename H into Hv end.
    match goal with IH : nondecreasing _ -> _ |- _ =>
      destruct IH as (i & Hi & Hb & Hl & Hr); auto; try lia end.
    + intros j w Hj Hw. destruct (decide (j = (lo + hi) / 2)) as [->|Hne].
      * rewrite Hv in Hw. injection Hw as <-. lia.
      * assert (w <= v) by (apply (Hs j ((lo + hi) / 2)); auto; lia). lia.
    + exists i. repeat split; auto; lia.
  - match goal with H : _ !! _ = Some _ |- _ => rename H into Hv end.
    match goal with IH : nondecreasing _ -> _ |- _ =>
      destruct IH as (i & Hi & Hb & Hl & Hr); auto; try lia end.
    + intros j w Hj Hw. destruct (decide (j = (lo + hi) / 2)) as [->|Hne].
      * rewrite Hv in Hw. injection Hw as <-. lia.
      * destruct (decide (hi <= j)); [eauto|].
        assert (v <= w) by (apply (Hs ((lo + hi) / 2) j); auto; lia). lia.
    + exists i. repeat split; auto; lia.
Qed.

Lemma bisect_right_go_spec a x lo hi :
  nondecreasing a -> lo <= hi -> hi <= length a ->
  (forall j v, j < lo -> a !! j = Some v -> v <= x) ->
  (forall j v, hi <= j -> a !! j = Some v -> x < v) ->
  exists i, bisect_right_go a x lo hi = Ok i /\ lo <= i <= hi /\
    (forall j v, j < i -> a !! j = Some v -> v <= x) /\
    (forall j v, i <= j -> a !! j = Some v -> x < v).
Proof.
  funelim (bisect_right_go a x lo hi); intros Hs Hle Hhi Hlo Hup;
    try (match goal with H : lo < hi |- _ => pose proof (mid_bounds _ _ H) as Hm end).
  - exists lo. repeat split; auto; try lia. intros j v Hj. apply Hup. lia.
  - match goal with H : _ !! _ = None |- _ => apply lookup_ge_None in H; lia end.
  - match goal with H : _ !! _ = Some _ |- _ => rename H into Hv end.
    match goal with IH : nondecreasing _ -> _ |- _ =>
      destruct IH as (i & Hi & Hb & Hl & Hr); auto; try lia end.
    + intros j w Hj Hw. destruct (decide (j = (lo + hi) / 2)) as [->|Hne].
      * rewrite Hv in Hw. injection Hw as <-. lia.
      * destruct (decide (hi <= j)); [eauto|].
        assert (v <= w) by (apply (Hs ((lo + hi) / 2) j); auto; lia). lia.
    + exists i. repeat split; auto; lia.
  - match goal with H : _ !! _ = Some _ |- _ => rename H into Hv end.
    match goal with IH : nondecreasing _ -> _ |- _ =>
      destruct IH as (i & Hi & Hb & Hl & Hr); auto; try lia end.
    + intros j w Hj Hw. destruct (decide (j = (lo + hi) / 2)) as [->|Hne].
      * rewrite Hv in Hw. injection Hw as <-. lia.
      * assert (w <= v) by (apply (Hs j ((lo + hi) / 2)); auto; lia). lia.
    + exists i. repeat split; auto; lia.
Qed.

Lemma bisect_left_spec a x :
  nondecreasing a ->
  exists i, bisect_left a x = Ok i /\ i <= length a /\
    (forall j v, j < i -> a !! j = Some v -> v < x) /\
    (forall j v, i <= j -> a !! j = Some v -> x <= v).
Proof.
  intros Hs. unfold bisect_left.
  destruct (bisect_left_go_spec a x 0 (length a)) as (i & Hi & Hb & Hl & Hr);
    auto; try lia.
  - intros j v Hj Hv. apply lookup_lt_Some in Hv. lia.
  - exists i. repeat split; auto; lia.
Qed.

Lemma bisect_right_spec a x :
  nondecreasing a ->
  exists i, bisect_right a x = Ok i /\ i <= length a /\
    (forall j v, j < i -> a !! j = Some v -> v <= x) /\
    (forall j v, i <= j -> a !! j = Some v -> x < v).
Proof.
  intros Hs. unfold bisect_right.
  destruct (bisect_right_go_spec a x 0 (length a)) as (i & Hi & Hb & Hl & Hr);
    auto; try lia.
  - intros j v Hj Hv. apply lookup_lt_Some in Hv. lia.
  - exists i. repeat split; auto; lia.
Qed.

(** ** Lists under [insert] and [del] *)

Lemma lookup_insert_at {A : Type} (i : nat) (x : A) (l : list A) (p : nat) :
  i <= length l ->
  list_insert_at i x l !! p =
    if decide (p < i) then l !! p
    else if decide (p = i) then Some x else l !! (p - 1).
Proof.
  intros Hi. unfold list_insert_at.
  destruct (decide (p < i)) as [Hlt|Hge].
  - rewrite lookup_app_l by (rewrite length_take; lia).
    apply lookup_take_lt. exact Hlt.
  - rewrite lookup_app_r by (rewrite length_take; lia).
    rewrite length_take, Nat.min_l by lia.
    destruct (decide (p = i)) as [->|Hne].
    + rewrite Nat.sub_diag. reflexivity.
    + destruct (p - i) as [|n] eqn:Hn; [lia|]. simpl.
      rewrite lookup_drop. f_equal. lia.
Qed.

Lemma fmap_insert_at {A B : Type} (f : A -> B) i x (l : list A) :
  f <$> list_insert_at i x l = list_insert_at i (f x) (f <$> l).
Proof.
  unfold list_insert_at. rewrite fmap_app, fmap_cons, fmap_take, fmap_drop.
  reflexivity.
Qed.

Lemma length_insert_at {A : Type} i (x : A) l :
  length (list_insert_at i x l) = S (length l).
Proof.
  unfold list_insert_at. rewrite length_app. simpl.
  rewrite length_take, length_drop. lia.
Qed.

(** Inserting a key between the keys not above it and the keys not below
    it keeps the list sorted. *)
Lemma nondecreasing_insert_at i k l :
  nondecreasing l -> i <= length l ->
  (forall j v, j < i -> l !! j = Some v -> v <= k) ->
  (forall j v, i <= j -> l !! j = Some v -> k <= v) ->
  nondecreasing (list_insert_at i k l).
Proof.
  intros Hs Hi Hl Hr p q a b Hpq.
  rewrite !lookup_insert_at by exact Hi.
  repeat case_decide; intros Ha Hb; simplify_eq; try lia.
  - eapply (Hs p q); eauto.
  - eapply Hl; eauto.
  - eapply (Hs p (q - 1)); eauto. lia.
  - eapply Hr; [|exact Hb]. lia.
  - eapply (Hs (p - 1) (q - 1)); eauto. lia.
Qed.

Lemma nondecreasing_delete i l : nondecreasing l -> nondecreasing (delete i l).
Proof.
  intros Hs p q a b Hpq. rewrite !list_lookup_delete.
  repeat case_decide; intros Ha Hb.
  - eapply (Hs p q); eauto.
  - eapply (Hs p (S q)); eauto.
  - lia.
  - eapply (Hs (S p) (S q)); eauto. lia.
Qed.

(** ** [sorted] *)

Section SortedFacts.
Context {A : Type} (lt : A -> A -> bool) (R : relation A).
Context `{!Transitive R}.
Hypothesis lt_true : forall x y, lt x y = true -> R x y.
Hypothesis lt_false : forall x y, lt x y = false -> R y x.

Lemma Forall_sorted_insert (P : A -> Prop) x l :
  P x -> Forall P l -> Forall P (sorted_insert lt x l).
Proof.
  intros Hx Hl. induction Hl as [|y l Hy Hl IH]; simpl.
  - constructor; [exact Hx | constructor].
  - destruct (lt y x); repeat constructor; auto.
Qed.

Lemma Forall_sorted (P : A -> Prop) l : Forall P l -> Forall P (sorted lt l).
Proof.
  intros Hl. induction Hl as [|x l Hx Hl IH]; simpl; [constructor|].
  apply Forall_sorted_insert; assumption.
Qed.

Lemma StronglySorted_sorted_insert x l :
  StronglySorted R l -> StronglySorted R (sorted_insert lt x l).
Proof.
  intros Hl. induction Hl as [|y l Hl IH Hy]; simpl.
  - repeat constructor.
  - destruct (lt y x) eqn:Hyx.
    + constructor; [exact IH|].
      apply Forall_sorted_insert; [apply lt_true, Hyx | exact Hy].
    + apply lt_false in Hyx. constructor; [constructor; assumption|].
      constructor; [exact Hyx|].
      eapply Forall_impl; [exact Hy|]. intros z Hz. simpl in Hz.
      etrans; eassumption.
Qed.

Lemma StronglySorted_sorted l : StronglySorted R (sorted lt l).
Proof.
  induction l as [|x l IH]; simpl; [constructor|].
  apply StronglySorted_sorted_insert, IH.
Qed.

End SortedFacts.

Lemma StronglySorted_nondecreasing l : StronglySorted le l -> nondecreasing l.
Proof.
  intros Hl. induction Hl as [|x l Hl IH Hx]; intros i j a b Hij Ha Hb.
  - rewrite lookup_nil in Ha. discriminate.
  - destruct j as [|j]; [lia|]. simpl in Hb. destruct i as [|i]; simpl in Ha.
    + injection Ha as <-. rewrite Forall_forall in Hx. apply Hx.
      eapply list_elem_of_lookup_2. exact Hb.
    + apply (IH i j); auto. lia.
Qed.

Lemma nondecreasing_StronglySorted l : nondecreasing l -> StronglySorted le l.
Proof.
  induction l as [|x l IH]; intros Hl; constructor.
  - apply IH. intros i j a b Hij Ha Hb. apply (Hl (S i) (S j)); auto. lia.
  - rewrite Forall_forall. intros y Hy.
    apply list_elem_of_lookup_1 in Hy as [j Hj].
    apply (Hl 0 (S j)); auto. lia.
Qed.

(** ** [SortedCollection] *)

Module SortedCollectionFacts.
Import SortedCollection.
Section Facts.
Context {item : Type} `{!EqDecision item}.
Context (key : item -> nat) (item_lt : item -> item -> bool).

(** The sort invariant is sortedness of the keys of the items. *)
Lemma sort_invariant_keys (self : t item) :
  sort_invariant key self <-> nondecreasing (key <$> _items self).
Proof.
  unfold sort_invariant, nondecreasing. split.
  - intros H i j a b Hij Ha Hb.
    apply list_lookup_fmap_Some in Ha as (x & -> & Hx).
    apply list_lookup_fmap_Some in Hb as (y & -> & Hy). eauto.
  - intros H i j x y Hij Hx Hy. apply (H i j); auto;
      rewrite list_lookup_fmap; [rewrite Hx | rewrite Hy]; reflexivity.
Qed.

Lemma init_invariant (iterable : list item) :
  keys_cached key (init key item_lt iterable) /\
  sort_invariant key (init key item_lt iterable).
Proof.
  set (d := sorted (pair_lt item_lt) ((fun x => (key x, x)) <$> iterable)).
  assert (Hd : Forall (fun p : nat * item => p.1 = key p.2) d).
  { apply Forall_sorted. apply Forall_fmap, Forall_forall. reflexivity. }
  assert (Hk : fst <$> d = key <$> (snd <$> d)).
  { clearbody d. induction Hd as [|p d Hp Hd IH]; simpl; [reflexivity|].
    rewrite Hp. f_equal. exact IH. }
  split; [exact Hk|].
  apply sort_invariant_keys. unfold init. fold d. simpl. rewrite <- Hk.
  apply StronglySorted_nondecreasing.
  apply (StronglySorted_fmap fst (fun p q : nat * item => p.1 <= q.1) le).
  { intros p q H. exact H. }
  apply (StronglySorted_sorted (pair_lt item_lt)).
  - intros p q r Hpq Hqr. simpl in *. lia.
  - intros p q H. unfold pair_lt in H.
    apply orb_true_iff in H as [H|H].
    + apply Nat.ltb_lt in H. lia.
    + apply andb_true_iff in H as [H _]. apply Nat.eqb_eq in H. lia.
  - intros p q H. unfold pair_lt in H.
    apply orb_false_iff in H as [H _]. apply Nat.ltb_ge in H. exact H.
Qed.

Lemma insert_invariant (self : t item) (x : item) :
  keys_cached key self -> sort_invariant key self ->
  exists i self1 self2,
    insert_keys key self x = Ok (i, self1) /\
    insert key self x = Ok self2 /\
    sort_invariant key self1 /\
    keys_cached key self2 /\ sort_invariant key self2 /\
    _items self2 = list_insert_at i x (_items self).
Proof.
  intros Hc Hs. apply sort_invariant_keys in Hs as Hk. rewrite <- Hc in Hk.
  destruct (bisect_left_spec (_keys self) (key x) Hk) as (i & Hi & Hlen & Hl & Hr).
  unfold insert, insert_keys. rewrite Hi. simpl.
  eexists _, _, _. split; [reflexivity|]. split; [reflexivity|].
  split; [exact Hs|]. unfold keys_cached. simpl.
  rewrite fmap_insert_at, <- Hc. split; [reflexivity|]. split; [|reflexivity].
  apply sort_invariant_keys. simpl. rewrite fmap_insert_at, <- Hc.
  apply nondecreasing_insert_at; auto.
  intros j v Hj Hv. specialize (Hl j v Hj Hv). lia.
Qed.

Lemma insert_right_invariant (self : t item) (x : item) :
  keys_cached key self -> sort_invariant key self ->
  exists i self1 self2,
    insert_right_keys key self x = Ok (i, self1) /\
    insert_right key self x = Ok self2 /\
    sort_invariant key self1 /\
    keys_cached key self2 /\ sort_invariant key self2 /\
    _items self2 = list_insert_at i x (_items self).
Proof.
  intros Hc Hs. apply sort_invariant_keys in Hs as Hk. rewrite <- Hc in Hk.
  destruct (bisect_right_spec (_keys self) (key x) Hk) as (i & Hi & Hlen & Hl & Hr).
  unfold insert_right, insert_right_keys. rewrite Hi. simpl.
  eexists _, _, _. split; [reflexivity|]. split; [reflexivity|].
  split; [exact Hs|]. unfold keys_cached. simpl.
  rewrite fmap_insert_at, <- Hc. split; [reflexivity|]. split; [|reflexivity].
  apply sort_invariant_keys. simpl. rewrite fmap_insert_at, <- Hc.
  apply nondecreasing_insert_at; auto.
  intros j v Hj Hv. specialize (Hr j v Hj Hv). lia.
Qed.

(** [index_of] finds an item that is there. *)
Lemma index_of_elem (x : item) (l : list item) :
  x ∈ l -> exists n, index_of x l = Ok n /\ l !! n = Some x.
Proof.
  induction l as [|y l IH]; intros Hx; [inversion Hx|]. simpl.
  destruct (decide (y = x)) as [->|Hne]; [exists 0; auto|].
  apply elem_of_cons in Hx as [Hx|Hx]; [congruence|].
  destruct (IH Hx) as (n & Hn & Hl). exists (S n). rewrite Hn. auto.
Qed.

Lemma index_of_lookup (x : item) (l : list item) n :
  index_of x l = Ok n -> l !! n = Some x.
Proof.
  revert n. induction l as [|y l IH]; intros n; simpl; [discriminate|].
  destruct (decide (y = x)) as [->|Hne].
  - intros [= <-]. reflexivity.
  - destruct (index_of x l) as [e|m]; simpl; [discriminate|].
    intros [= <-]. simpl. apply IH. reflexivity.
Qed.

Lemma lookup_slice {A : Type} (i j n : nat) (l : list A) (x : A) :
  slice i j l !! n = Some x -> l !! (i + n) = Some x.
Proof.
  unfold slice. intros H. apply lookup_take_Some in H as [H _].
  rewrite lookup_drop in H. exact H.
Qed.

(** [index] returns a position of the item, and finds an item that is in
    the collection. *)
Lemma index_lookup (self : t item) (x : item) i :
  index key self x = Ok i -> _items self !! i = Some x.
Proof.
  unfold index.
  destruct (bisect_left (_keys self) (key x)) as [e|a]; simpl; [discriminate|].
  destruct (bisect_right (_keys self) (key x)) as [e|b]; simpl; [discriminate|].
  destruct (index_of x (slice a b (_items self))) as [e|n] eqn:Hn; simpl;
    [discriminate|].
  intros [= <-]. apply index_of_lookup, lookup_slice in Hn.
  rewrite Nat.add_comm. exact Hn.
Qed.

Lemma index_elem (self : t item) (x : item) :
  keys_cached key self -> sort_invariant key self -> x ∈ _items self ->
  exists i, index key self x = Ok i.
Proof.
  intros Hc Hs Hx. apply sort_invariant_keys in Hs as Hk. rewrite <- Hc in Hk.
  destruct (bisect_left_spec (_keys self) (key x) Hk) as (a & Ha & _ & Hal & _).
  destruct (bisect_right_spec (_keys self) (key x) Hk) as (b & Hb & _ & _ & Hbr).
  apply list_elem_of_lookup_1 in Hx as [p Hp].
  assert (Hkp : _keys self !! p = Some (key x))
    by (rewrite Hc, list_lookup_fmap, Hp; reflexivity).
  assert (a <= p) by (destruct (decide (a <= p)); [assumption|];
    specialize (Hal p (key x) ltac:(lia) Hkp); lia).
  assert (p < b) by (destruct (decide (p < b)); [assumption|];
    specialize (Hbr p (key x) ltac:(lia) Hkp); lia).
  assert (Hin : x ∈ slice a b (_items self)).
  { apply (list_elem_of_lookup_2 _ (p - a)). unfold slice.
    rewrite lookup_take_lt by lia. rewrite lookup_drop.
    replace (a + (p - a)) with p by lia. exact Hp. }
  destruct (index_of_elem _ _ Hin) as (n & Hn & _).
  exists (n + a). unfold index. rewrite Ha. simpl. rewrite Hb. simpl.
  rewrite Hn. reflexivity.
Qed.

Lemma remove_keys_invariant (self : t item) (x : item) i self1 :
  sort_invariant key self ->
  remove_keys key self x = Ok (i, self1) -> sort_invariant key self1.
Proof.
  intros Hs. unfold remove_keys.
  destruct (index key self x) as [e|n]; simpl; [discriminate|].
  destruct (list_del n (_keys self)) as [e|ks]; simpl; [discriminate|].
  intros [= <- <-]. exact Hs.
Qed.

Lemma remove_invariant (self : t item) (x : item) self' :
  keys_cached key self -> sort_invariant key self ->
  remove key self x = Ok self' ->
  keys_cached key self' /\ sort_invariant key self'.
Proof.
  intros Hc Hs. unfold remove, remove_keys, list_del.
  destruct (index key self x) as [e|n]; simpl; [discriminate|].
  destruct (decide (n < length (_keys self))); simpl; [|discriminate].
  destruct (decide (n < length (_items self))); simpl; [|discriminate].
  intros [= <-]. unfold keys_cached. simpl. rewrite list_fmap_delete, <- Hc.
  split; [reflexivity|].
  apply sort_invariant_keys. simpl. rewrite list_fmap_delete.
  apply nondecreasing_delete, sort_invariant_keys, Hs.
Qed.

Lemma remove_elem (self : t item) (x : item) :
  keys_cached key self -> sort_invariant key self -> x ∈ _items self ->
  exists self', remove key self x = Ok self'.
Proof.
  intros Hc Hs Hx. destruct (index_elem self x Hc Hs Hx) as [i Hi].
  pose proof (index_lookup _ _ _ Hi) as Hl. apply lookup_lt_Some in Hl.
  unfold remove, remove_keys, list_del. rewrite Hi. simpl.
  rewrite decide_True by (rewrite Hc, length_fmap; exact Hl). simpl.
  rewrite decide_True by exact Hl. simpl. eauto.
Qed.

(** Both invariants hold of every collection a program can hold. *)
Lemma reachable_invariant (self : t item) :
  reachable key item_lt self ->
  keys_cached key self /\ sort_invariant key self.
Proof.
  induction 1 as [iterable | self x self' _ [Hc Hs] Hop
                 | self x self' _ [Hc Hs] Hop | self x self' _ [Hc Hs] Hop].
  - apply init_invariant.
  - destruct (insert_invariant self x Hc Hs) as (i & s1 & s2 & _ & H2 & _ & ? & ? & _).
    rewrite Hop in H2. injection H2 as ->. auto.
  - destruct (insert_right_invariant self x Hc Hs) as (i & s1 & s2 & _ & H2 & _ & ? & ? & _).
    rewrite Hop in H2. injection H2 as ->. auto.
  - eapply remove_invariant; eassumption.
Qed.

(** C5: the collection built by the constructor is sorted by key, and from
    a collection a program can hold, which is sorted by key, [insert] and
    [insert_right] return with the collection sorted after each of their
    two statements, and [remove] leaves it sorted after each of its two
    deletions, and returns when the item is there. *)
Theorem sort_invariant_preserved (self : t item) (x : item) (iterable : list item) :
  reachable key item_lt self ->
  sort_invariant key (init key item_lt iterable) /\
  sort_invariant key self /\
  (exists i self1 self2,
      insert_keys key self x = Ok (i, self1) /\ insert key self x = Ok self2 /\
      sort_invariant key self1 /\ sort_invariant key self2) /\
  (exists i self1 self2,
      insert_right_keys key self x = Ok (i, self1) /\
      insert_right key self x = Ok self2 /\
      sort_invariant key self1 /\ sort_invariant key self2) /\
  (forall i self1,
      remove_keys key self x = Ok (i, self1) -> sort_invariant key self1) /\
  (forall self', remove key self x = Ok self' -> sort_invariant key self') /\
  (x ∈ _items self -> exists self', remove key self x = Ok self').
Proof.
  intros Hr. destruct (reachable_invariant self Hr) as [Hc Hs].
  split; [apply init_invariant|]. split; [exact Hs|].
  split.
  { destruct (insert_invariant self x Hc Hs) as (i & s1 & s2 & ? & ? & ? & ? & ? & _).
    eauto 10. }
  split.
  { destruct (insert_right_invariant self x Hc Hs) as (i & s1 & s2 & ? & ? & ? & ? & ? & _).
    eauto 10. }
  split; [intros i s1; apply remove_keys_invariant, Hs|].
  split; [intros s' H; eapply remove_invariant; eassumption|].
  apply remove_elem; assumption.
Qed.

End Facts.

(** An instance: the words [cat] and [at] by length, and the word [act]. *)
Lemma sort_invariant_preserved_witness :
  let self := init len String.ltb ["cat"; "at"] in
  sort_invariant len (init len String.ltb ["tac"; "a"]) /\
  sort_invariant len self /\
  (exists i self1 self2,
      insert_keys len self "act" = Ok (i, self1) /\
      insert len self "act" = Ok self2 /\
      sort_invariant len self1 /\ sort_invariant len self2) /\
  (exists i self1 self2,
      insert_right_keys len self "act" = Ok (i, self1) /\
      insert_right len self "act" = Ok self2 /\
      sort_invariant len self1 /\ sort_invariant len self2) /\
  (forall i self1,
      remove_keys len self "act" = Ok (i, self1) -> sort_invariant len self1) /\
  (forall self', remove len self "act" = Ok self' -> sort_invariant len self') /\
  ("act" ∈ _items self -> exists self', remove len self "act" = Ok self').
Proof.
  intros self.
  apply (sort_invariant_preserved len String.ltb self "act" ["tac"; "a"]).
  apply reachable_init.
Defined.

End SortedCollectionFacts.

(** ** The reporter *)

Module ReporterFacts.
Import Reporter.

Lemma word_in_elem x l : word_in x l = true <-> x ∈ l.
Proof.
  induction l as [|y l IH]; simpl.
  - rewrite elem_of_nil. split; [discriminate | tauto].
  - rewrite elem_of_cons. destruct (decide (y = x)) as [->|Hne].
    + tauto.
    + rewrite IH. split; [auto | intros [->|H]; [contradiction | exact H]].
Qed.

Lemma zero_in_elem flags : zero_in flags = true <-> false ∈ flags.
Proof.
  induction flags as [|b flags IH]; simpl.
  - rewrite elem_of_nil. split; [discriminate | tauto].
  - rewrite elem_of_cons. destruct b.
    + rewrite IH. split; [auto | intros [H|H]; [discriminate | exact H]].
    + tauto.
Qed.

(** The test [0 in [item in top for item in test]]: some item of [test] is
    not in [top]. *)
Lemma zero_in_flags (test top : list string) :
  zero_in ((fun item => word_in item top) <$> test) = true <->
  exists item, item ∈ test /\ item ∉ top.
Proof.
  rewrite zero_in_elem, list_elem_of_fmap. split.
  - intros (item & Hf & Hin). exists item. split; [exact Hin|].
    intros Ht. apply word_in_elem in Ht. congruence.
  - intros (item & Hin & Hnt). exists item. split; [|exact Hin].
    destruct (word_in item top) eqn:Hw; [|reflexivity].
    apply word_in_elem in Hw. contradiction.
Qed.

Lemma candidate_empty (sorted_set : SortedCollection.t string) :
  SortedCollection.__len__ sorted_set = 0 -> candidate sorted_set = [].
Proof.
  unfold SortedCollection.__len__, candidate. intros H.
  apply nil_length_inv in H. rewrite H. reflexivity.
Qed.

(** The two outcomes of an iteration. *)
Lemma top_words_iter_cases (sorted_set : SortedCollection.t string) (top : list string) :
  top_words_iter sorted_set top =
     (candidate sorted_set,
      Some (TopWords (SortedCollection.__len__ sorted_set) (candidate sorted_set)))
  \/ top_words_iter sorted_set top = (top, None).
Proof.
  unfold top_words_iter.
  destruct (decide (0 < SortedCollection.__len__ sorted_set)); [|right; reflexivity].
  destruct (zero_in _); [left | right]; reflexivity.
Qed.

(** The test of an iteration, on any collection and any [top]: it logs a
    report, and takes the candidate as the new [top], exactly when some word
    of the candidate is not in [top]; otherwise it logs nothing and keeps
    [top]. *)
Theorem top_words_reports (sorted_set : SortedCollection.t string) (top : list string) :
  ((exists record, (top_words_iter sorted_set top).2 = Some record) <->
   (exists item, item ∈ candidate sorted_set /\ item ∉ top)) /\
  (top_words_iter sorted_set top =
     (candidate sorted_set,
      Some (TopWords (SortedCollection.__len__ sorted_set) (candidate sorted_set)))
   \/ top_words_iter sorted_set top = (top, None)).
Proof.
  unfold top_words_iter.
  destruct (decide (0 < SortedCollection.__len__ sorted_set)) as [Hpos|Hz].
  - destruct (zero_in _) eqn:Hflag; simpl.
    + split; [|left; reflexivity]. split; [|eauto].
      intros _. apply zero_in_flags. exact Hflag.
    + split; [|right; reflexivity]. split; [intros [r Hr]; discriminate|].
      intros H. apply zero_in_flags in H. congruence.
  - split; [|right; reflexivity]. simpl.
    split; [intros [r Hr]; discriminate|].
    rewrite candidate_empty by lia. intros (item & Hin & _).
    apply elem_of_nil in Hin. contradiction.
Qed.


(** On a collection that loses an item, which [remove] allows and the
    program never does: after [ab] and [cd] were reported, [cd] is removed;
    the candidate [ab] and [top] differ as sets, and the next iteration logs
    nothing. *)
Lemma top_words_removal_unreported :
  exists s1 s2 s3 top1 record,
    SortedCollection.insert len (SortedCollection.init len String.ltb []) "ab" = Ok s1 /\
    SortedCollection.insert len s1 "cd" = Ok s2 /\
    top_words_iter s2 [] = (top1, Some record) /\
    SortedCollection.remove len s2 "cd" = Ok s3 /\
    ~ ((exists record', (top_words_iter s3 top1).2 = Some record') <->
       ~ (forall w, w ∈ candidate s3 <-> w ∈ top1)).
Proof.
  eexists _, _, _, _, _.
  split; [vm_compute; reflexivity|].
  split; [vm_compute; reflexivity|].
  split; [vm_compute; reflexivity|].
  split; [vm_compute; reflexivity|].
  intros [_ H]. destruct H as [r Hr]; [|vm_compute in Hr; discriminate Hr].
  intros Heq. assert (Hcd : "cd" ∈ candidate
    {| SortedCollection._keys := [2]; SortedCollection._items := ["ab"] |}).
  { apply Heq. apply elem_of_cons. right. apply list_elem_of_here. }
  vm_compute in Hcd. apply list_elem_of_singleton in Hcd. discriminate Hcd.
Qed.

End ReporterFacts.

(** ** Doubles: rounding, division, multiplication and comparison *)

Module FloatFacts.
Import Float.
Local Open Scope Z_scope.

(** *** Powers of two *)

Lemma pow2_pos e : (0 < pow2 e)%Q.
Proof. unfold pow2. apply Qpower_0_lt. reflexivity. Qed.

Lemma pow2_add a b : (pow2 (a + b) == pow2 a * pow2 b)%Q.
Proof. unfold pow2. apply Qpower_plus. discriminate. Qed.

Lemma pow2_nonneg e : 0 <= e -> (pow2 e == inject_Z (2 ^ e))%Q.
Proof.
  intros He. unfold pow2. rewrite (Zpower_Qpower 2 e He). reflexivity.
Qed.

Lemma pow2_0 : (pow2 0 == 1)%Q.
Proof. reflexivity. Qed.

Lemma pow2_succ e : (pow2 (e + 1) == 2 * pow2 e)%Q.
Proof. rewrite pow2_add. change (pow2 1) with (2 # 1)%Q. ring. Qed.

Lemma pow2_le a b : a <= b -> (pow2 a <= pow2 b)%Q.
Proof.
  intros Hab. replace b with (a + (b - a)) by lia. rewrite pow2_add.
  rewrite (pow2_nonneg (b - a)) by lia.
  assert (H1 : (1 <= inject_Z (2 ^ (b - a)))%Q).
  { change 1%Q with (inject_Z 1). rewrite <- Zle_Qle.
    pose proof (Z.pow_pos_nonneg 2 (b - a)). lia. }
  pose proof (pow2_pos a). nra.
Qed.

(** *** Number of binary digits *)

Lemma digits2_pos_size p : digits2_pos p = Pos.size p.
Proof. induction p; simpl; congruence. Qed.

Lemma Zdigits2_log2 z : 0 < z -> Zdigits2 z = Z.log2 z + 1.
Proof.
  destruct z as [|p|p]; try lia. intros _. simpl.
  rewrite digits2_pos_size. destruct p; simpl; lia.
Qed.

Lemma Zdigits2_spec z : 0 < z -> 2 ^ (Zdigits2 z - 1) <= z < 2 ^ Zdigits2 z.
Proof.
  intros Hz. rewrite Zdigits2_log2 by assumption.
  pose proof (Z.log2_spec z Hz) as H.
  replace (Z.log2 z + 1 - 1) with (Z.log2 z) by lia.
  replace (Z.log2 z + 1) with (Z.succ (Z.log2 z)) by lia. exact H.
Qed.

Lemma Zdigits2_unique z d : 0 < d -> 2 ^ (d - 1) <= z < 2 ^ d -> Zdigits2 z = d.
Proof.
  intros Hd H.
  assert (Hz : 0 < z).
  { pose proof (Z.pow_pos_nonneg 2 (d - 1)). lia. }
  rewrite Zdigits2_log2 by assumption.
  rewrite (Z.log2_unique z (d - 1)); try lia.
  replace (Z.succ (d - 1)) with d by lia. exact H.
Qed.

Lemma Zdigits2_shiftr z k :
  0 < z -> 0 <= k < Zdigits2 z -> Zdigits2 (Z.shiftr z k) = Zdigits2 z - k.
Proof.
  intros Hz Hk. rewrite (Zdigits2_log2 z Hz) in *.
  assert (H0 : 0 < Z.shiftr z k).
  { destruct (Z.shiftr_eq_0_iff z k) as [H1 _].
    pose proof (Z.shiftr_nonneg z k). 
    destruct (Z.eq_dec (Z.shiftr z k) 0) as [E|E]; [|lia].
    destruct (H1 E) as [?|[_ ?]]; lia. }
  rewrite (Zdigits2_log2 _ H0), Z.log2_shiftr by assumption. lia.
Qed.

(** *** Shifting right keeps the position of the value *)

Import FloatSpec.

Lemma located_ext m l w w' : (w == w')%Q -> located m l w -> located m l w'.
Proof. intros E. destruct l as [|[]]; simpl; rewrite E; auto. Qed.

Lemma inject_Z_xO p : (inject_Z (Zpos p~0) == 2 * inject_Z (Zpos p))%Q.
Proof. rewrite Pos2Z.inj_xO, inject_Z_mult. reflexivity. Qed.

Lemma inject_Z_xI p : (inject_Z (Zpos p~1) == 2 * inject_Z (Zpos p) + 1)%Q.
Proof. rewrite Pos2Z.inj_xI, inject_Z_plus, inject_Z_mult. reflexivity. Qed.

Lemma shr_1_located mrs w :
  0 <= shr_m mrs ->
  located (shr_m mrs) (loc_of_shr_record mrs) w ->
  located (shr_m (shr_1 mrs)) (loc_of_shr_record (shr_1 mrs)) (w * (1 # 2)) /\
  shr_m (shr_1 mrs) = Z.div2 (shr_m mrs).
Proof.
  destruct mrs as [m r s]. simpl shr_m. intros Hm.
  destruct m as [|p|p]; [| |lia].
  - destruct r, s; simpl; intros H; split; try reflexivity;
      change (inject_Z 0) with 0%Q in *; lra.
  - destruct p as [p|p|]; destruct r, s; simpl; intros H; split;
      try reflexivity;
      try (pose proof (inject_Z_xO p)); try (pose proof (inject_Z_xI p));
      change (inject_Z 0) with 0%Q in *; change (inject_Z 1) with 1%Q in *;
      lra.
Qed.

Lemma iter_pos_nat {A : Type} (f : A -> A) p x :
  SpecFloat.iter_pos f p x = Nat.iter (Pos.to_nat p) f x.
Proof.
  revert x. induction p as [p IH|p IH|]; intros x; simpl SpecFloat.iter_pos.
  - rewrite !IH, Pos2Nat.inj_xI, <- Nat.iter_add, <- Nat.iter_succ_r.
    f_equal. lia.
  - rewrite !IH, Pos2Nat.inj_xO, <- Nat.iter_add. f_equal. lia.
  - reflexivity.
Qed.

Lemma pow2_pred e : (pow2 (e - 1) == pow2 e * (1 # 2))%Q.
Proof.
  replace (e - 1) with (e + -1) by lia. rewrite pow2_add. reflexivity.
Qed.

Lemma pow2_opp e : (pow2 (- e) * pow2 e == 1)%Q.
Proof. rewrite <- pow2_add. replace (- e + e) with 0 by lia. reflexivity. Qed.

Lemma shr_iter_inbetween n mrs e v :
  0 <= shr_m mrs -> inbetween mrs e v ->
  inbetween (Nat.iter n shr_1 mrs) (e + Z.of_nat n) v /\
  shr_m (Nat.iter n shr_1 mrs) = Z.shiftr (shr_m mrs) (Z.of_nat n).
Proof.
  intros Hm Hv. induction n as [|n [IH1 IH2]].
  - simpl Nat.iter. rewrite Z.add_0_r, Z.shiftr_0_r. auto.
  - rewrite Nat.iter_succ.
    assert (H0 : 0 <= shr_m (Nat.iter n shr_1 mrs)).
    { rewrite IH2. apply Z.shiftr_nonneg. exact Hm. }
    destruct (shr_1_located _ _ H0 IH1) as [H1 H2]. split.
    + unfold inbetween. eapply located_ext; [|exact H1].
      replace (- (e + Z.of_nat (S n))) with (- (e + Z.of_nat n) - 1) by lia.
      rewrite pow2_pred. ring.
    + rewrite H2, IH2, Z.div2_spec, Z.shiftr_shiftr by lia.
      f_equal. lia.
Qed.

Lemma shr_inbetween mrs e n v :
  0 <= shr_m mrs -> 0 <= n -> inbetween mrs e v ->
  inbetween (fst (shr mrs e n)) (snd (shr mrs e n)) v /\
  snd (shr mrs e n) = e + n /\
  shr_m (fst (shr mrs e n)) = Z.shiftr (shr_m mrs) n.
Proof.
  intros Hm Hn Hv. destruct n as [|p|p]; [| |lia].
  - simpl. rewrite Z.add_0_r. auto.
  - unfold shr. cbn [fst snd]. rewrite iter_pos_nat.
    destruct (shr_iter_inbetween (Pos.to_nat p) mrs e v Hm Hv) as [H1 H2].
    rewrite positive_nat_Z in H1, H2. auto.
Qed.

Lemma shr_record_of_loc_m m l : shr_m (shr_record_of_loc m l) = m.
Proof. destruct l as [|[]]; reflexivity. Qed.

Lemma loc_of_shr_record_of_loc m l :
  loc_of_shr_record (shr_record_of_loc m l) = l.
Proof. destruct l as [|[]]; reflexivity. Qed.

(** *** Rounding to nearest, ties to even *)

Lemma round_nearest_even_spec m l w :
  located m l w ->
  (round_nearest_even m l = m \/ round_nearest_even m l = m + 1) /\
  (inject_Z m <= w)%Q /\
  (inject_Z (round_nearest_even m l) - (1 # 2) <= w)%Q /\
  (w <= inject_Z (round_nearest_even m l) + (1 # 2))%Q /\
  (l = loc_Exact -> round_nearest_even m l = m).
Proof.
  assert (E : (inject_Z (m + 1) == inject_Z m + 1)%Q).
  { rewrite inject_Z_plus. reflexivity. }
  destruct l as [|[]]; simpl; intros H;
    try destruct (Z.even m); repeat split; auto; try discriminate; lra.
Qed.

Lemma u_value : (u == 1 # 9007199254740992)%Q.
Proof. reflexivity. Qed.

Lemma binary_round_aux_eq sx mx ex lx :
  binary_round_aux prec emax sx mx ex lx =
  let r1 := shr_fexp prec emax mx ex lx in
  let r2 := shr_fexp prec emax
              (round_nearest_even (shr_m (fst r1)) (loc_of_shr_record (fst r1)))
              (snd r1) loc_Exact in
  match shr_m (fst r2) with
  | Z0 => S754_zero sx
  | Zpos m => if Z.leb (snd r2) (emax - prec) then S754_finite sx m (snd r2)
              else S754_infinity sx
  | _ => S754_nan
  end.
Proof.
  unfold binary_round_aux. destruct (shr_fexp prec emax mx ex lx) as [a b].
  cbn [fst snd].
  destruct (shr_fexp prec emax _ b loc_Exact) as [c d]. reflexivity.
Qed.

Lemma fexp_normal e : -1074 <= e - 53 -> fexp prec emax e = e - 53.
Proof. unfold fexp, emin, prec, emax. lia. Qed.

(** *** Rounding a value located by a mantissa of at least 53 bits *)

Lemma round_aux_normal mx ex lx v :
  0 < mx -> 53 <= Zdigits2 mx ->
  -1074 <= Zdigits2 mx + ex - 53 -> Zdigits2 mx + ex <= 1023 ->
  located mx lx (v * pow2 (- ex)) ->
  exists m e,
    binary_round_aux prec emax false mx ex lx = S754_finite false m e /\
    normal (S754_finite false m e) /\
    Zdigits2 mx + ex - 53 <= e <= Zdigits2 mx + ex - 52 /\
    (v * (1 - u) <= inject_Z (Zpos m) * pow2 e)%Q /\
    (inject_Z (Zpos m) * pow2 e <= v * (1 + u))%Q /\
    (lx = loc_Exact -> Zdigits2 mx = 53 -> Zpos m = mx /\ e = ex).
Proof.
  intros Hmx Hd Hlo Hhi Hv. set (d := Zdigits2 mx) in *.
  rewrite binary_round_aux_eq.
  (* first shift: down to 53 bits *)
  assert (E1 : shr_fexp prec emax mx ex lx =
               shr (shr_record_of_loc mx lx) ex (d - 53)).
  { unfold shr_fexp. fold d. rewrite (fexp_normal (d + ex)) by lia.
    f_equal. lia. }
  cbv zeta. rewrite E1. clear E1.
  assert (Hin : inbetween (shr_record_of_loc mx lx) ex v).
  { unfold inbetween.
    rewrite shr_record_of_loc_m, loc_of_shr_record_of_loc. exact Hv. }
  destruct (shr_inbetween (shr_record_of_loc mx lx) ex (d - 53) v)
    as (H1 & H2 & H3); [rewrite shr_record_of_loc_m; lia|lia|exact Hin|].
  rewrite shr_record_of_loc_m in H3.
  set (r1 := shr (shr_record_of_loc mx lx) ex (d - 53)) in *.
  set (m1 := shr_m (fst r1)) in *. set (e1 := snd r1) in *.
  assert (Hd1 : Zdigits2 m1 = 53).
  { rewrite H3, Zdigits2_shiftr; fold d; lia. }
  assert (Hm1pos : 0 < m1).
  { destruct m1 as [|p|p]; [discriminate Hd1|lia|].
    rewrite H3 in *. pose proof (Z.shiftr_nonneg mx (d - 53)). lia. }
  pose proof (Zdigits2_spec m1 Hm1pos) as Hm1. rewrite Hd1 in Hm1.
  change (2 ^ (53 - 1)) with 4503599627370496 in Hm1.
  change (2 ^ 53) with 9007199254740992 in Hm1.
  (* rounding *)
  unfold inbetween in H1. fold m1 e1 in H1.
  set (w1 := (v * pow2 (- e1))%Q) in *.
  destruct (round_nearest_even_spec m1 _ w1 H1) as (Hr1 & Hr2 & Hr3 & Hr4 & Hr5).
  set (m2 := round_nearest_even m1 (loc_of_shr_record (fst r1))) in *.
  assert (Hvw : (v == w1 * pow2 e1)%Q).
  { unfold w1. rewrite <- Qmult_assoc, pow2_opp. ring. }
  assert (Hq1 : (inject_Z 4503599627370496 <= inject_Z m1)%Q).
  { rewrite <- Zle_Qle. lia. }
  change (inject_Z 4503599627370496) with (4503599627370496 # 1)%Q in Hq1.
  pose proof u_value as Hu. pose proof (pow2_pos e1) as Hp1.
  assert (Hlow : (w1 * (1 - u) <= inject_Z m2)%Q) by (rewrite Hu; lra).
  assert (Hupp : (inject_Z m2 <= w1 * (1 + u))%Q) by (rewrite Hu; lra).
  assert (Hlow' : (w1 * (1 - u) * pow2 e1 <= inject_Z m2 * pow2 e1)%Q).
  { apply Qmult_le_compat_r; [exact Hlow|apply Qlt_le_weak, Hp1]. }
  assert (Hupp' : (inject_Z m2 * pow2 e1 <= w1 * (1 + u) * pow2 e1)%Q).
  { apply Qmult_le_compat_r; [exact Hupp|apply Qlt_le_weak, Hp1]. }
  assert (Hexact : lx = loc_Exact -> d = 53 -> m2 = mx /\ e1 = ex).
  { intros El Ed. subst lx. 
    assert (Er : r1 = (shr_record_of_loc mx loc_Exact, ex)).
    { unfold r1. rewrite Ed. reflexivity. }
    unfold m2, m1, e1. rewrite Er. cbn [fst snd]. simpl. auto. }
  (* second shift: at most one bit *)
  destruct (Z.eq_dec m2 9007199254740992) as [E2|E2].
  - assert (E3 : shr_fexp prec emax m2 e1 loc_Exact =
                 ({| shr_m := 4503599627370496; shr_r := false;
                     shr_s := false |}, e1 + 1)).
    { unfold shr_fexp. rewrite E2.
      change (Zdigits2 9007199254740992) with 54.
      rewrite (fexp_normal (54 + e1)) by lia.
      replace (54 + e1 - 53 - e1) with 1 by lia. reflexivity. }
    rewrite E3. cbn [fst snd shr_m].
    assert (Hle : (e1 + 1 <=? emax - prec) = true).
    { apply Z.leb_le. unfold emax, prec. lia. }
    rewrite Hle.
    exists 4503599627370496%positive, (e1 + 1).
    refine (conj eq_refl (conj _ (conj _ (conj _ (conj _ _))))).
    + simpl. lia.
    + lia.
    + rewrite pow2_succ.
      change (inject_Z 4503599627370496) with (4503599627370496 # 1)%Q.
      rewrite E2 in Hlow'.
      change (inject_Z 9007199254740992) with (9007199254740992 # 1)%Q in Hlow'.
      rewrite Hvw. lra.
    + rewrite pow2_succ.
      change (inject_Z 4503599627370496) with (4503599627370496 # 1)%Q.
      rewrite E2 in Hupp'.
      change (inject_Z 9007199254740992) with (9007199254740992 # 1)%Q in Hupp'.
      rewrite Hvw. lra.
    + intros El Ed. destruct (Hexact El Ed) as [Em _].
      pose proof (Zdigits2_spec mx Hmx) as Hs. fold d in Hs. rewrite Ed in Hs.
      change (2 ^ 53) with 9007199254740992 in Hs. lia.
  - assert (Hm2 : 4503599627370496 <= m2 < 9007199254740992) by lia.
    assert (Hd2 : Zdigits2 m2 = 53).
    { apply Zdigits2_unique; [lia|].
      change (2 ^ (53 - 1)) with 4503599627370496.
      change (2 ^ 53) with 9007199254740992. exact Hm2. }
    assert (E3 : shr_fexp prec emax m2 e1 loc_Exact =
                 (shr_record_of_loc m2 loc_Exact, e1)).
    { unfold shr_fexp. rewrite Hd2, (fexp_normal (53 + e1)) by lia.
      replace (53 + e1 - 53 - e1) with 0 by lia. reflexivity. }
    rewrite E3. cbn [fst snd shr_record_of_loc shr_m].
    destruct m2 as [|p|p]; [lia| |lia].
    assert (Hle : (e1 <=? emax - prec) = true).
    { apply Z.leb_le. unfold emax, prec. lia. }
    rewrite Hle. exists p, e1.
    refine (conj eq_refl (conj _ (conj _ (conj _ (conj _ _))))).
    + simpl. lia.
    + lia.
    + rewrite Hvw. lra.
    + rewrite Hvw. lra.
    + intros El Ed. destruct (Hexact El Ed). lia.
Qed.

(** *** Conversion of an integer below [2 ^ 53] is exact *)

Lemma iter_xO_shiftl p q : Zpos (Pos.iter xO p q) = Zpos p * 2 ^ Zpos q.
Proof.
  rewrite <- Z.shiftl_mul_pow2 by lia. unfold Z.shiftl.
  apply (Pos.iter_swap_gen _ _ Zpos xO (Z.mul 2)). reflexivity.
Qed.

Lemma of_int_normal x :
  0 < Z.of_nat x < 2 ^ 53 ->
  exists m e,
    of_int x = S754_finite false m e /\
    normal (S754_finite false m e) /\ -52 <= e <= 0 /\
    (value (S754_finite false m e) == inject_Z (Z.of_nat x))%Q.
Proof.
  intros Hx. unfold of_int, binary_normalize.
  destruct (Z.of_nat x) as [|p|p] eqn:Ex; [lia| |lia].
  pose proof (Zdigits2_spec (Zpos p) ltac:(lia)) as Hd.
  set (d := Zdigits2 (Zpos p)) in *.
  assert (Hd53 : 1 <= d <= 53).
  { split.
    - unfold d. simpl. lia.
    - destruct (Z_lt_le_dec 53 d) as [H|H]; [|exact H].
      assert (2 ^ 53 <= 2 ^ (d - 1)) by (apply Z.pow_le_mono_r; lia). lia. }
  unfold binary_round.
  change (Zpos (digits2_pos p)) with d.
  rewrite (fexp_normal (d + 0)) by lia.
  replace (d + 0 - 53) with (d - 53) by lia.
  set (mz := (Zpos p * 2 ^ (53 - d))).
  assert (Es : exists q, shl_align p 0 (d - 53) = (q, d - 53) /\
                         Zpos q = mz).
  { unfold shl_align. replace (d - 53 - 0) with (d - 53) by lia.
    destruct (d - 53) as [|k|k] eqn:Ek; [|lia|].
    - exists p. split; [reflexivity|]. unfold mz.
      replace (53 - d) with 0 by lia. lia.
    - exists (Pos.iter xO p k). split; [reflexivity|].
      rewrite iter_xO_shiftl. unfold mz. f_equal. f_equal. lia. }
  destruct Es as (q & -> & Eq).
  assert (Hmz : 2 ^ 52 <= mz < 2 ^ 53).
  { assert (E52 : 2 ^ 52 = 2 ^ (d - 1) * 2 ^ (53 - d)).
    { rewrite <- Z.pow_add_r by lia. f_equal. lia. }
    assert (E53 : 2 ^ 53 = 2 ^ d * 2 ^ (53 - d)).
    { rewrite <- Z.pow_add_r by lia. f_equal. lia. }
    pose proof (Z.pow_pos_nonneg 2 (53 - d)).
    unfold mz. rewrite E52, E53. nia. }
  assert (Hdz : Zdigits2 mz = 53).
  { apply Zdigits2_unique; [lia|exact Hmz]. }
  rewrite Eq.
  destruct (round_aux_normal mz (d - 53) loc_Exact
              (inject_Z (Zpos p))) as (m & e & E & Hn & He & _ & _ & Hex).
  - lia.
  - lia.
  - lia.
  - lia.
  - simpl. unfold mz. rewrite inject_Z_mult.
    replace (- (d - 53)) with (53 - d) by lia.
    rewrite pow2_nonneg by lia. reflexivity.
  - destruct (Hex eq_refl Hdz) as [Em Ee].
    exists m, e. rewrite E. repeat split; try (simpl in Hn; lia).
    simpl. rewrite Em, Ee. unfold mz. rewrite inject_Z_mult.
    rewrite <- (pow2_nonneg (53 - d)) by lia.
    rewrite <- Qmult_assoc, <- pow2_add.
    replace (53 - d + (d - 53)) with 0 by lia. rewrite pow2_0. ring.
Qed.

(** *** Position of a quotient *)

Lemma new_location_located n q r :
  0 < n -> 0 <= r < n ->
  located q (new_location n r) (inject_Z q + inject_Z r / inject_Z n).
Proof.
  intros Hn Hr.
  assert (Hn0 : (0 < inject_Z n)%Q).
  { change 0%Q with (inject_Z 0). rewrite <- Zlt_Qlt. exact Hn. }
  assert (Hnn : ~ (inject_Z n == 0)%Q) by lra.
  set (t := (inject_Z r / inject_Z n)%Q).
  assert (Ht : (t * inject_Z n == inject_Z r)%Q).
  { unfold t. rewrite Qmult_comm. apply Qmult_div_r. exact Hnn. }
  assert (Cmp : forall a b : Z, a < b -> (inject_Z a < inject_Z b)%Q).
  { intros a b H. rewrite <- Zlt_Qlt. exact H. }
  assert (H2 : (inject_Z (2 * r) == 2 * inject_Z r)%Q).
  { rewrite inject_Z_mult. reflexivity. }
  assert (Hlt : 2 * r < n -> (t < 1 # 2)%Q).
  { intros H. apply Qlt_shift_div_r; [exact Hn0|].
    apply Cmp in H. lra. }
  assert (Hgt : n < 2 * r -> ((1 # 2) < t)%Q).
  { intros H. apply Qlt_shift_div_l; [exact Hn0|].
    apply Cmp in H. lra. }
  assert (Heq : 2 * r = n -> (t == 1 # 2)%Q).
  { intros H. unfold t. rewrite <- H, H2.
    assert (~ (inject_Z r == 0)%Q).
    { intros E. rewrite <- H, H2, E in Hn0. lra. }
    field. lra. }
  assert (H1 : (t < 1)%Q).
  { apply Qlt_shift_div_r; [exact Hn0|].
    assert (H : r < n) by lia. apply Cmp in H. lra. }
  assert (H0 : r <> 0 -> (0 < t)%Q).
  { intros H. apply Qlt_shift_div_l; [exact Hn0|].
    assert (H' : 0 < r) by lia. apply Cmp in H'.
    change (inject_Z 0) with 0%Q in H'. lra. }
  assert (Hz : r = 0 -> (t == 0)%Q).
  { intros E. unfold t. rewrite E. change (inject_Z 0) with 0%Q.
    field. exact Hnn. }
  unfold new_location. destruct (Z.even n) eqn:Hev.
  - unfold new_location_even. destruct (Z.eqb_spec r 0) as [E|E].
    + specialize (Hz E). simpl. lra.
    + specialize (H0 E).
      destruct (Z.compare_spec (2 * r) n) as [C|C|C]; simpl.
      * specialize (Heq C). lra.
      * specialize (Hlt C). lra.
      * specialize (Hgt C). lra.
  - unfold new_location_odd. destruct (Z.eqb_spec r 0) as [E|E].
    + specialize (Hz E). simpl. lra.
    + specialize (H0 E).
      assert (Hne : 2 * r <> n).
      { intros C. rewrite <- C, Z.even_mul in Hev. discriminate Hev. }
      destruct (Z.compare_spec (2 * r + 1) n) as [C|C|C]; simpl.
      * assert (C' : 2 * r < n) by lia. specialize (Hlt C'). lra.
      * assert (C' : 2 * r < n) by lia. specialize (Hlt C'). lra.
      * assert (C' : n < 2 * r) by lia. specialize (Hgt C'). lra.
Qed.

(** *** Division and multiplication of normal doubles *)

Lemma pow2_neg e : (pow2 (- e) == / pow2 e)%Q.
Proof. unfold pow2. apply Qpower_opp. Qed.

Lemma pow2_nonzero e : ~ (pow2 e == 0)%Q.
Proof. pose proof (pow2_pos e). lra. Qed.

Lemma mantissa_Q m :
  2 ^ 52 <= Zpos m < 2 ^ 53 ->
  (4503599627370496 <= inject_Z (Zpos m) /\
   inject_Z (Zpos m) < 9007199254740992)%Q.
Proof.
  intros [H1 H2]. split.
  - change (4503599627370496)%Q with (inject_Z (2 ^ 52)).
    rewrite <- Zle_Qle. exact H1.
  - change (9007199254740992)%Q with (inject_Z (2 ^ 53)).
    rewrite <- Zlt_Qlt. exact H2.
Qed.

Lemma value_bounds m e :
  2 ^ 52 <= Zpos m < 2 ^ 53 ->
  (4503599627370496 * pow2 e <= value (S754_finite false m e) /\
   value (S754_finite false m e) < 9007199254740992 * pow2 e)%Q.
Proof.
  intros H. destruct (mantissa_Q m H) as [H1 H2].
  pose proof (pow2_pos e) as Hp. simpl. split.
  - apply Qmult_le_compat_r; [exact H1|lra].
  - apply Qmult_lt_compat_r; [exact Hp|exact H2].
Qed.

Lemma div_core_normal m1 e1 m2 e2 :
  2 ^ 52 <= Zpos m1 < 2 ^ 53 -> 2 ^ 52 <= Zpos m2 < 2 ^ 53 ->
  -1021 <= e1 - e2 ->
  SFdiv_core_binary prec emax (Zpos m1) e1 (Zpos m2) e2 =
  (Zpos m1 * 2 ^ 53 / Zpos m2, e1 - e2 - 53,
   new_location (Zpos m2) ((Zpos m1 * 2 ^ 53) mod Zpos m2)).
Proof.
  intros H1 H2 He. unfold SFdiv_core_binary.
  rewrite (Zdigits2_unique (Zpos m1) 53), (Zdigits2_unique (Zpos m2) 53)
    by (try lia; assumption).
  cbv zeta.
  assert (Ee : Z.min (fexp prec emax (53 + e1 - (53 + e2))) (e1 - e2) =
               e1 - e2 - 53).
  { rewrite fexp_normal by lia. lia. }
  rewrite Ee. replace (e1 - e2 - (e1 - e2 - 53)) with 53 by lia.
  rewrite (Z.shiftl_mul_pow2 (Zpos m1) 53) by lia.
  unfold Z.div, Z.modulo.
  destruct (Z.div_eucl (Zpos m1 * 2 ^ 53) (Zpos m2)) as [q r]. reflexivity.
Qed.

Lemma div_normal m1 e1 m2 e2 :
  2 ^ 52 <= Zpos m1 < 2 ^ 53 -> 2 ^ 52 <= Zpos m2 < 2 ^ 53 ->
  -1021 <= e1 - e2 <= 1022 ->
  exists m e,
    div (S754_finite false m1 e1) (S754_finite false m2 e2) =
      S754_finite false m e /\
    normal (S754_finite false m e) /\
    e1 - e2 - 53 <= e <= e1 - e2 - 51 /\
    (value (S754_finite false m1 e1) / value (S754_finite false m2 e2) *
       (1 - u) <= value (S754_finite false m e))%Q /\
    (value (S754_finite false m e) <=
     value (S754_finite false m1 e1) / value (S754_finite false m2 e2) *
       (1 + u))%Q.
Proof.
  intros H1 H2 He. unfold div, SFdiv. cbn [xorb].
  rewrite div_core_normal by (try assumption; lia).
  set (m' := Zpos m1 * 2 ^ 53). set (q := m' / Zpos m2).
  set (r := m' mod Zpos m2).
  set (v := (value (S754_finite false m1 e1) /
             value (S754_finite false m2 e2))%Q).
  change (2 ^ 52) with 4503599627370496 in H1, H2.
  change (2 ^ 53) with 9007199254740992 in H1, H2.
  assert (Hm' : m' = Zpos m1 * 9007199254740992) by reflexivity.
  assert (Hq : 4503599627370496 <= q < 18014398509481984).
  { unfold q. split.
    - apply Z.div_le_lower_bound; lia.
    - apply Z.div_lt_upper_bound; lia. }
  assert (Hr : 0 <= r < Zpos m2) by (apply Z.mod_pos_bound; lia).
  assert (Hdm : m' = Zpos m2 * q + r) by (apply Z.div_mod; lia).
  assert (Hdq : 53 <= Zdigits2 q <= 54).
  { destruct (Z_lt_le_dec q 9007199254740992) as [C|C].
    - rewrite (Zdigits2_unique q 53); [lia|lia|].
      change (2 ^ (53 - 1)) with 4503599627370496.
      change (2 ^ 53) with 9007199254740992. lia.
    - rewrite (Zdigits2_unique q 54); [lia|lia|].
      change (2 ^ (54 - 1)) with 9007199254740992.
      change (2 ^ 54) with 18014398509481984. lia. }
  destruct (round_aux_normal q (e1 - e2 - 53)
              (new_location (Zpos m2) r) v)
    as (m & e & E & Hn & Hee & Hlo & Hup & _); try lia.
  - eapply located_ext; [|apply (new_location_located (Zpos m2) q r); lia].
    unfold v. simpl value.
    replace (- (e1 - e2 - 53)) with (53 + (e2 + - e1)) by lia.
    rewrite !pow2_add, pow2_neg.
    change (pow2 53) with (inject_Z 9007199254740992).
    assert (Em : (inject_Z (Zpos m1) * inject_Z 9007199254740992 ==
                  inject_Z (Zpos m2) * inject_Z q + inject_Z r)%Q).
    { rewrite <- !inject_Z_mult, <- inject_Z_plus, <- Hdm, Hm'.
      reflexivity. }
    pose proof (pow2_nonzero e1). pose proof (pow2_nonzero e2).
    assert (~ (inject_Z (Zpos m2) == 0)%Q).
    { destruct (mantissa_Q m2 H2). lra. }
    transitivity (inject_Z (Zpos m1) * inject_Z 9007199254740992 /
                  inject_Z (Zpos m2))%Q.
    + rewrite Em. field. assumption.
    + field. auto.
  - exists m, e. rewrite E.
    refine (conj eq_refl (conj Hn (conj _ (conj Hlo Hup)))). lia.
Qed.

Lemma mul_normal m1 e1 m2 e2 :
  2 ^ 52 <= Zpos m1 < 2 ^ 53 -> 2 ^ 52 <= Zpos m2 < 2 ^ 53 ->
  -1126 <= e1 + e2 <= 917 ->
  exists m e,
    mul (S754_finite false m1 e1) (S754_finite false m2 e2) =
      S754_finite false m e /\
    normal (S754_finite false m e) /\
    (value (S754_finite false m1 e1) * value (S754_finite false m2 e2) *
       (1 - u) <= value (S754_finite false m e))%Q /\
    (value (S754_finite false m e) <=
     value (S754_finite false m1 e1) * value (S754_finite false m2 e2) *
       (1 + u))%Q.
Proof.
  intros H1 H2 He. unfold mul, SFmul. cbn [xorb].
  change (2 ^ 52) with 4503599627370496 in H1, H2.
  change (2 ^ 53) with 9007199254740992 in H1, H2.
  set (v := (value (S754_finite false m1 e1) *
             value (S754_finite false m2 e2))%Q).
  assert (Hp : 20282409603651670423947251286016 <= Zpos (m1 * m2) <
               81129638414606681695789005144064).
  { rewrite Pos2Z.inj_mul. nia. }
  assert (Hd : 105 <= Zdigits2 (Zpos (m1 * m2)) <= 106).
  { destruct (Z_lt_le_dec (Zpos (m1 * m2)) 40564819207303340847894502572032)
      as [C|C].
    - rewrite (Zdigits2_unique _ 105); [lia|lia|].
      change (2 ^ (105 - 1)) with 20282409603651670423947251286016.
      change (2 ^ 105) with 40564819207303340847894502572032. lia.
    - rewrite (Zdigits2_unique _ 106); [lia|lia|].
      change (2 ^ (106 - 1)) with 40564819207303340847894502572032.
      change (2 ^ 106) with 81129638414606681695789005144064. lia. }
  destruct (round_aux_normal (Zpos (m1 * m2)) (e1 + e2) loc_Exact v)
    as (m & e & E & Hn & Hee & Hlo & Hup & _); try lia.
  - simpl located. unfold v. simpl value.
    rewrite pow2_neg, pow2_add, Pos2Z.inj_mul, inject_Z_mult.
    pose proof (pow2_nonzero e1). pose proof (pow2_nonzero e2).
    field. auto.
  - exists m, e. rewrite E.
    exact (conj eq_refl (conj Hn (conj Hlo Hup))).
Qed.

(** *** Comparison of normal doubles follows their values *)

Lemma normal_compare m1 e1 m2 e2 :
  normal (S754_finite false m1 e1) -> normal (S754_finite false m2 e2) ->
  (value (S754_finite false m1 e1) < value (S754_finite false m2 e2))%Q ->
  SFcompare (S754_finite false m1 e1) (S754_finite false m2 e2) = Some Lt.
Proof.
  intros [H1 _] [H2 _] Hv. unfold SFcompare.
  destruct (value_bounds m1 e1 H1) as [L1 U1].
  destruct (value_bounds m2 e2 H2) as [L2 U2].
  destruct (Z.compare_spec e1 e2) as [C|C|C].
  - subst e2. simpl in Hv.
    apply Qmult_lt_r in Hv; [|apply pow2_pos].
    rewrite <- Zlt_Qlt in Hv. f_equal.
    change (PosDef.Pos.compare_cont Eq m1 m2) with (Pos.compare m1 m2).
    apply Pos.compare_lt_iff. lia.
  - reflexivity.
  - exfalso. pose proof (pow2_le (e2 + 1) e1 ltac:(lia)) as Hle.
    rewrite pow2_succ in Hle. lra.
Qed.

Lemma ltb_normal f g :
  normal f -> normal g -> (value f < value g)%Q -> ltb f g = true.
Proof.
  destruct f as [| | |[] m1 e1]; try contradiction.
  destruct g as [| | |[] m2 e2]; try contradiction.
  intros Hf Hg Hv. unfold ltb, SFltb.
  rewrite (normal_compare _ _ _ _ Hf Hg Hv). reflexivity.
Qed.

Lemma ltb_leb f g : ltb f g = true -> leb f g = true.
Proof.
  unfold ltb, leb, SFltb, SFleb.
  destruct (SFcompare f g) as [[]|]; auto.
Qed.

Lemma leb_refl_normal f : normal f -> leb f f = true.
Proof.
  destruct f as [| | |[] m e]; try contradiction. intros _.
  unfold leb, SFleb, SFcompare. rewrite Z.compare_refl.
  change (PosDef.Pos.compare_cont Eq m m) with (Pos.compare m m).
  rewrite Pos.compare_refl. reflexivity.
Qed.

Lemma zero_ltb_normal f : normal f -> ltb (S754_zero false) f = true.
Proof. destruct f as [| | |[] m e]; try contradiction. reflexivity. Qed.

End FloatFacts.

(** ** The value of a progress sample *)

Module SampleFacts.
Import Float FloatSpec FloatFacts Distributor.
Local Open Scope Z_scope.

Lemma hundred_value :
  of_int 100 = S754_finite false 7036874417766400 (-46).
Proof. vm_compute. reflexivity. Qed.

Lemma hundred_normal : normal (of_int 100).
Proof. rewrite hundred_value. simpl. lia. Qed.

Lemma hundred_Q : (value (of_int 100) == 100)%Q.
Proof. rewrite hundred_value. vm_compute. reflexivity. Qed.

(** The first sample is the float zero. *)
Lemma sample_zero (n : nat) :
  0 < Z.of_nat n < 2 ^ 53 -> sample 0 n = S754_zero false.
Proof.
  intros Hn. destruct (of_int_normal n Hn) as (m & e & E & _).
  unfold sample, truediv. rewrite E, hundred_value. reflexivity.
Qed.

(** A later sample is a normal double within two roundings of
    [100 * x / n]. *)
Lemma sample_normal (x n : nat) :
  (0 < x < n)%nat -> Z.of_nat n <= 2 ^ 52 ->
  normal (sample x n) /\
  (100 * (inject_Z (Z.of_nat x) / inject_Z (Z.of_nat n)) * (1 - u) * (1 - u)
     <= value (sample x n))%Q /\
  (value (sample x n)
     <= 100 * (inject_Z (Z.of_nat x) / inject_Z (Z.of_nat n)) * (1 + u) * (1 + u))%Q.
Proof.
  intros Hx Hn.
  change (2 ^ 52) with 4503599627370496 in Hn.
  destruct (of_int_normal x) as (mx & ex & Ex & Nx & Hex & Vx).
  { change (2 ^ 53) with 9007199254740992. lia. }
  destruct (of_int_normal n) as (mn & en & En & Nn & Hen & Vn).
  { change (2 ^ 53) with 9007199254740992. lia. }
  unfold sample, truediv. rewrite Ex, En.
  destruct Nx as [Nx _]. destruct Nn as [Nn _].
  destruct (div_normal mx ex mn en Nx Nn) as (ma & ea & Ea & Na & Hea & La & Ua);
    [lia|].
  rewrite Ea, hundred_value. destruct Na as [Na Na'].
  destruct (mul_normal ma ea 7036874417766400 (-46) Na) as (ms & es & Es & Ns & Ls & Us).
  { change (2 ^ 52) with 4503599627370496.
    change (2 ^ 53) with 9007199254740992. lia. }
  { lia. }
  rewrite Es. split; [exact Ns|].
  rewrite Vx, Vn in La, Ua.
  set (A := (inject_Z (Z.of_nat x) / inject_Z (Z.of_nat n))%Q) in *.
  assert (HA : (0 <= A)%Q).
  { unfold A. apply Qle_shift_div_l.
    - change 0%Q with (inject_Z 0). rewrite <- Zlt_Qlt. lia.
    - rewrite Qmult_0_l. change 0%Q with (inject_Z 0). rewrite <- Zle_Qle. lia. }
  assert (H100 : (value (S754_finite false 7036874417766400 (-46)) == 100)%Q).
  { vm_compute. reflexivity. }
  rewrite H100 in Ls, Us.
  set (va := value (S754_finite false ma ea)) in *.
  set (vs := value (S754_finite false ms es)) in *.
  rewrite u_value in *. split; nra.
Qed.

Lemma fraction_bounds (x n : nat) :
  (x < n)%nat -> Z.of_nat n <= 2 ^ 52 ->
  (0 <= inject_Z (Z.of_nat x) / inject_Z (Z.of_nat n))%Q /\
  (inject_Z (Z.of_nat x) / inject_Z (Z.of_nat n)
     <= 1 - (1 # 4503599627370496))%Q.
Proof.
  intros Hx Hn. change (2 ^ 52) with 4503599627370496 in Hn.
  assert (H0 : (0 < inject_Z (Z.of_nat n))%Q).
  { change 0%Q with (inject_Z 0). rewrite <- Zlt_Qlt. lia. }
  assert (H1 : (inject_Z (Z.of_nat x) + 1 <= inject_Z (Z.of_nat n))%Q).
  { change 1%Q with (inject_Z 1). rewrite <- inject_Z_plus, <- Zle_Qle. lia. }
  assert (H2 : (inject_Z (Z.of_nat n) <= 4503599627370496)%Q).
  { change (4503599627370496)%Q with (inject_Z 4503599627370496).
    rewrite <- Zle_Qle. exact Hn. }
  assert (H3 : (0 <= inject_Z (Z.of_nat x))%Q).
  { change 0%Q with (inject_Z 0). rewrite <- Zle_Qle. lia. }
  split.
  - apply Qle_shift_div_l; [exact H0|lra].
  - apply Qle_shift_div_r; [exact H0|lra].
Qed.

Lemma fraction_step (x y n : nat) :
  (x + 1000 <= y)%nat -> (y < n)%nat -> Z.of_nat n <= 2 ^ 52 ->
  (inject_Z (Z.of_nat x) / inject_Z (Z.of_nat n) + (1000 # 4503599627370496)
     <= inject_Z (Z.of_nat y) / inject_Z (Z.of_nat n))%Q.
Proof.
  intros Hxy Hy Hn. change (2 ^ 52) with 4503599627370496 in Hn.
  assert (H0 : (0 < inject_Z (Z.of_nat n))%Q).
  { change 0%Q with (inject_Z 0). rewrite <- Zlt_Qlt. lia. }
  assert (H1 : (inject_Z (Z.of_nat x) + 1000 <= inject_Z (Z.of_nat y))%Q).
  { change 1000%Q with (inject_Z 1000).
    rewrite <- inject_Z_plus, <- Zle_Qle. lia. }
  assert (H2 : (inject_Z (Z.of_nat n) <= 4503599627370496)%Q).
  { change (4503599627370496)%Q with (inject_Z 4503599627370496).
    rewrite <- Zle_Qle. exact Hn. }
  apply Qle_shift_div_l; [exact H0|].
  assert (E : (inject_Z (Z.of_nat x) / inject_Z (Z.of_nat n)
               * inject_Z (Z.of_nat n) == inject_Z (Z.of_nat x))%Q).
  { rewrite Qmult_comm. apply Qmult_div_r. lra. }
  lra.
Qed.

(** Every sample is at least [0.0] and below [100.0]. *)
Lemma sample_range (x n : nat) :
  (x < n)%nat -> Z.of_nat n <= 2 ^ 52 ->
  leb (of_int 0) (sample x n) = true /\ ltb (sample x n) (of_int 100) = true.
Proof.
  intros Hx Hn. destruct x as [|x].
  - rewrite sample_zero; [split; reflexivity|].
    change (2 ^ 52) with 4503599627370496 in Hn.
    change (2 ^ 53) with 9007199254740992. lia.
  - destruct (sample_normal (S x) n) as (Ns & Ls & Us); [lia|exact Hn|].
    split.
    + apply ltb_leb. apply (zero_ltb_normal _ Ns).
    + apply ltb_normal; [exact Ns|exact hundred_normal|].
      rewrite hundred_Q.
      destruct (fraction_bounds (S x) n Hx Hn) as [F0 F1].
      rewrite u_value in Us. nra.
Qed.

(** A sample is below the sample of every later block. *)
Lemma sample_lt (x y n : nat) :
  (x + 1000 <= y)%nat -> (y < n)%nat -> Z.of_nat n <= 2 ^ 52 ->
  ltb (sample x n) (sample y n) = true.
Proof.
  intros Hxy Hy Hn.
  destruct (sample_normal y n) as (Ny & Ly & Uy); [lia|exact Hn|].
  destruct x as [|x].
  - rewrite sample_zero; [apply (zero_ltb_normal _ Ny)|].
    change (2 ^ 52) with 4503599627370496 in Hn.
    change (2 ^ 53) with 9007199254740992. lia.
  - destruct (sample_normal (S x) n) as (Nx & Lx & Ux); [lia|exact Hn|].
    apply ltb_normal; [exact Nx|exact Ny|].
    destruct (fraction_bounds (S x) n ltac:(lia) Hn) as [F0 F1].
    pose proof (fraction_step (S x) y n Hxy Hy Hn) as F2.
    rewrite u_value in Ux, Ly. nra.
Qed.

Lemma sample_leb_refl (x n : nat) :
  (x < n)%nat -> Z.of_nat n <= 2 ^ 52 ->
  leb (sample x n) (sample x n) = true.
Proof.
  intros Hx Hn. destruct x as [|x].
  - rewrite sample_zero; [reflexivity|].
    change (2 ^ 52) with 4503599627370496 in Hn.
    change (2 ^ 53) with 9007199254740992. lia.
  - destruct (sample_normal (S x) n) as (Ns & _); [lia|exact Hn|].
    apply leb_refl_normal, Ns.
Qed.

End SampleFacts.

(** ** The distributor *)

Module DistributorFacts.
Import Distributor.

(** The number of blocks of [n] words. *)
Lemma length_xrange n : length (xrange 0 n block_size) = (n + block_size - 1) / block_size.
Proof. unfold xrange. rewrite length_fmap, length_seq. f_equal. lia. Qed.

Lemma lookup_xrange n k :
  k < (n + block_size - 1) / block_size ->
  xrange 0 n block_size !! k = Some (k * block_size).
Proof.
  intros Hk. unfold xrange. rewrite list_lookup_fmap.
  replace (n - 0 + block_size - 1) with (n + block_size - 1) by lia.
  rewrite lookup_seq_lt by exact Hk. reflexivity.
Qed.

(** A block starts inside the list. *)
Lemma block_start_lt n k :
  k < (n + block_size - 1) / block_size -> k * block_size < n.
Proof.
  intros Hk. pose proof (Nat.Div0.mul_div_le (n + block_size - 1) block_size) as H.
  unfold block_size in *. lia.
Qed.

(** The events of the loop, two per iteration. *)
Lemma lookup_iterations (words : list string) (xs : list nat) (k : nat) (x : nat) :
  xs !! k = Some x ->
  (xs ≫= iteration words) !! (2 * k) =
    Some (PutComplete (sample x (length words))) /\
  (xs ≫= iteration words) !! (2 * k + 1) =
    Some (MapAsync (slice x (x + block_size) words)).
Proof.
  revert k. induction xs as [|y xs IH]; intros k Hk.
  - rewrite lookup_nil in Hk. discriminate.
  - destruct k as [|k]; simpl in Hk.
    + injection Hk as ->. split; reflexivity.
    + destruct (IH k Hk) as [H1 H2].
      replace (2 * S k) with (S (S (2 * k))) by lia.
      replace (S (S (2 * k)) + 1) with (S (S (2 * k + 1))) by lia.
      split; [exact H1 | exact H2].
Qed.

Lemma length_iterations (words : list string) (xs : list nat) :
  length (xs ≫= iteration words) = 2 * length xs.
Proof.
  induction xs as [|y xs IH]; [reflexivity|].
  change (S (S (length (xs ≫= iteration words))) = 2 * S (length xs)).
  rewrite IH. lia.
Qed.

Lemma samples_iterations (words : list string) (xs : list nat) :
  omap (fun e => match e with PutComplete v => Some v | MapAsync _ => None end)
       (xs ≫= iteration words)
  = (fun x => sample x (length words)) <$> xs.
Proof. induction xs as [|y xs IH]; simpl; [reflexivity|]. f_equal. exact IH. Qed.

Lemma lookup_samples (words : list string) (k : nat) (v : spec_float) :
  samples words !! k = Some v ->
  v = sample (k * block_size) (length words) /\ k * block_size < length words.
Proof.
  unfold samples, distribute. rewrite samples_iterations, list_lookup_fmap.
  intros H. destruct (xrange 0 (length words) block_size !! k) as [x|] eqn:Hx;
    [|discriminate].
  assert (Hk : k < (length words + block_size - 1) / block_size).
  { rewrite <- length_xrange. eapply lookup_lt_Some, Hx. }
  rewrite lookup_xrange in Hx by exact Hk. injection Hx as <-.
  injection H as <-. split; [reflexivity|]. apply block_start_lt, Hk.
Qed.

(** C6, as the loop has it: each block has its one sample, put on the
    progress channel just before the block is submitted, and the sample of
    block [k] is [x / N * 100] for [x = k * 1000], the index of the first
    word of the block, which is the number of words submitted before it:
    the float that the true division of [x] by [N], then the product by
    [100], give, which is within two roundings of the number
    [100 * x / N]. *)
Theorem one_sample_per_block (words : list string) (k : nat) :
  k < (length words + block_size - 1) / block_size ->
  length (distribute words) = 2 * ((length words + block_size - 1) / block_size) /\
  distribute words !! (2 * k) =
    Some (PutComplete (sample (k * block_size) (length words))) /\
  distribute words !! (2 * k + 1) =
    Some (MapAsync (slice (k * block_size) (k * block_size + block_size) words)) /\
  sample (k * block_size) (length words) =
    Float.mul (Float.div (Float.of_int (k * 1000)) (Float.of_int (length words)))
              (Float.of_int 100) /\
  ((Z.of_nat (length words) <= 2 ^ 52)%Z -> 0 < k ->
   (100 * (inject_Z (Z.of_nat (k * 1000)) / inject_Z (Z.of_nat (length words)))
      * (1 - FloatSpec.u) * (1 - FloatSpec.u)
    <= Float.value (sample (k * block_size) (length words)))%Q /\
   (Float.value (sample (k * block_size) (length words))
    <= 100 * (inject_Z (Z.of_nat (k * 1000)) / inject_Z (Z.of_nat (length words)))
      * (1 + FloatSpec.u) * (1 + FloatSpec.u))%Q).
Proof.
  intros Hk. unfold distribute.
  split; [rewrite length_iterations, length_xrange; reflexivity|].
  destruct (lookup_iterations words _ k _ (lookup_xrange _ _ Hk)) as [H1 H2].
  split; [exact H1|]. split; [exact H2|]. split; [reflexivity|].
  intros Hn Hpos. pose proof (block_start_lt _ _ Hk) as Hlt.
  destruct (SampleFacts.sample_normal (k * block_size) (length words))
    as (_ & Hlo & Hup); [unfold block_size in *; lia|exact Hn|].
  split; [exact Hlo|exact Hup].
Qed.

(** An instance: 2500 words, the second block. *)
Lemma one_sample_per_block_witness :
  let words := replicate 2500 "ab" in
  length (distribute words) = 2 * ((length words + block_size - 1) / block_size) /\
  distribute words !! (2 * 1) =
    Some (PutComplete (sample (1 * block_size) (length words))) /\
  distribute words !! (2 * 1 + 1) =
    Some (MapAsync (slice (1 * block_size) (1 * block_size + block_size) words)) /\
  sample (1 * block_size) (length words) =
    Float.mul (Float.div (Float.of_int (1 * 1000)) (Float.of_int (length words)))
              (Float.of_int 100) /\
  ((Z.of_nat (length words) <= 2 ^ 52)%Z -> 0 < 1 ->
   (100 * (inject_Z (Z.of_nat (1 * 1000)) / inject_Z (Z.of_nat (length words)))
      * (1 - FloatSpec.u) * (1 - FloatSpec.u)
    <= Float.value (sample (1 * block_size) (length words)))%Q /\
   (Float.value (sample (1 * block_size) (length words))
    <= 100 * (inject_Z (Z.of_nat (1 * 1000)) / inject_Z (Z.of_nat (length words)))
      * (1 + FloatSpec.u) * (1 + FloatSpec.u))%Q).
Proof.
  intros words. apply (one_sample_per_block words 1). vm_compute. lia.
Defined.

(** C6 as stated fails: with 2500 words the sample of the second block is
    the float 40, not the float that the number of blocks submitted, 1,
    over 2500, times 100 gives, which is 0.04. *)
Lemma sample_is_not_block_count :
  ~ (forall v, distribute (replicate 2500 "ab") !! (2 * 1) = Some (PutComplete v) ->
               v = Float.mul (Float.div (Float.of_int 1) (Float.of_int 2500))
                             (Float.of_int 100)).
Proof.
  intros H. specialize (H (sample 1000 2500)).
  assert (Hl : distribute (replicate 2500 "ab") !! (2 * 1)
               = Some (PutComplete (sample 1000 2500)))
    by (vm_compute; reflexivity).
  specialize (H Hl). vm_compute in H. discriminate H.
Qed.

(** With 3000 words the second sample is the double [33.33333333333333],
    [4691249611844266 * 2 ^ -47]: the quotient and the product are each
    rounded, and the result is one unit in the last place below the double
    nearest to [100 / 3]. *)
Lemma sample_rounds_twice :
  sample 1000 3000 = S754_finite false 4691249611844266 (-47).
Proof. vm_compute. reflexivity. Qed.

(** Far beyond the length of any list in memory the bound of the samples
    is lost: with [2 ^ 54 + 17] words, the sample of the block that starts
    at [2 ^ 54 + 16] is the double [100.0]. *)
Lemma sample_beyond_bound :
  sample (Z.to_nat 18014398509482000) (Z.to_nat 18014398509482001) =
  Float.of_int 100.
Proof.
  unfold sample, Float.truediv, Float.of_int.
  rewrite !Z2Nat.id by lia. vm_compute. reflexivity.
Qed.

(** C7: the samples of a non-empty list of words, of at most [2 ^ 52]
    words, start at the double [0.0], stay in [[0.0, 100.0)] and increase
    strictly from each block to the next, under the comparisons of doubles.
    Below that length the two [int]s convert exactly and the two roundings,
    of the quotient and of the product, keep both the order and the
    bound. *)
Theorem samples_increasing_bounded (words : list string) (i j : nat)
    (a b : spec_float) :
  words <> [] -> (Z.of_nat (length words) <= 2 ^ 52)%Z -> i <= j ->
  samples words !! i = Some a -> samples words !! j = Some b ->
  samples words !! 0 = Some (Float.of_int 0) /\
  Float.leb (Float.of_int 0) a = true /\ Float.ltb a (Float.of_int 100) = true /\
  Float.leb (Float.of_int 0) b = true /\ Float.ltb b (Float.of_int 100) = true /\
  Float.leb a b = true /\ (i < j -> Float.ltb a b = true).
Proof.
  intros Hne Hn Hij Ha Hb.
  apply lookup_samples in Ha as [-> Hi]. apply lookup_samples in Hb as [-> Hj].
  destruct (SampleFacts.sample_range _ _ Hi Hn) as [Ha0 Ha1].
  destruct (SampleFacts.sample_range _ _ Hj Hn) as [Hb0 Hb1].
  assert (Hlt : i < j -> Float.ltb (sample (i * block_size) (length words))
                                   (sample (j * block_size) (length words)) = true).
  { intros Hlt. apply SampleFacts.sample_lt; [unfold block_size; lia|exact Hj|exact Hn]. }
  split.
  { unfold samples, distribute.
    rewrite samples_iterations, list_lookup_fmap, lookup_xrange.
    - cbn [fmap option_fmap option_map]. f_equal.
      apply SampleFacts.sample_zero.
      destruct words as [|w words]; [congruence|].
      change (2 ^ 52)%Z with 4503599627370496%Z in Hn.
      change (2 ^ 53)%Z with 9007199254740992%Z. simpl length in *. lia.
    - apply Nat.div_str_pos. unfold block_size.
      destruct words as [|w words]; [congruence|]. simpl. lia. }
  repeat (split; [assumption|]). split; [|exact Hlt].
  destruct (decide (i = j)) as [->|Hneq].
  - apply SampleFacts.sample_leb_refl; assumption.
  - apply FloatFacts.ltb_leb, Hlt. lia.
Qed.

(** An instance: 2500 words, the first two samples, 0.0 and 40.0. *)
Lemma samples_increasing_bounded_witness :
  let words := replicate 2500 "ab" in
  let a := sample 0 2500 in
  let b := sample 1000 2500 in
  samples words !! 0 = Some (Float.of_int 0) /\
  Float.leb (Float.of_int 0) a = true /\ Float.ltb a (Float.of_int 100) = true /\
  Float.leb (Float.of_int 0) b = true /\ Float.ltb b (Float.of_int 100) = true /\
  Float.leb a b = true /\ (0 < 1 -> Float.ltb a b = true).
Proof.
  intros words a b.
  apply (samples_increasing_bounded words 0 1 a b).
  - discriminate.
  - vm_compute. discriminate.
  - lia.
  - vm_compute. reflexivity.
  - vm_compute. reflexivity.
Defined.

End DistributorFacts.

(** ** The pipeline *)

Module PipelineFacts.
Import Matcher Pipeline.

(** What a call of [evaluator] does to the queue. *)
Lemma evaluator_queue word l q r l' q' :
  evaluator (word, l, q) = Ok (r, l', q') ->
  q' = q \/ (q' = q ++ [word] /\ forall c, count c (chars word) <= count c l).
Proof.
  destruct (popped_spec (chars word) l) as (taken & l1 & Hpop & _ & Hiff).
  rewrite (evaluator_popped _ _ _ _ _ Hpop). rewrite length_chars in Hiff.
  destruct (decide (length taken = len word)) as [Hlen|Hlen]; intros [= <- <- <-].
  - right. split; [reflexivity|]. apply Hiff, Hlen.
  - left. reflexivity.
Qed.

Lemma sub_letters_count l rack :
  sub_letters l rack = true -> forall c, count c l <= count c rack.
Proof.
  unfold sub_letters. rewrite forallb_forall. intros H c.
  destruct (in_dec ascii_dec c l) as [Hin|Hnin].
  - apply Nat.leb_le, H, Hin.
  - unfold count. rewrite (proj1 (count_occ_not_In ascii_dec _ _) Hnin). lia.
Qed.

Lemma fits_count rack word :
  (forall c, count c (chars word) <= count c rack) -> fits rack word = true.
Proof.
  intros H. unfold fits. apply forallb_forall. intros c _. apply Nat.leb_le, H.
Qed.

Lemma fit_count_app rack l1 l2 :
  fit_count rack (l1 ++ l2) = fit_count rack l1 + fit_count rack l2.
Proof. unfold fit_count. rewrite filter_app, length_app. reflexivity. Qed.

Lemma fit_count_delete rack (l : list string) n word :
  l !! n = Some word ->
  fit_count rack l =
    fit_count rack (delete n l) + (if fits rack word then 1 else 0).
Proof.
  intros Hn. rewrite <- (take_drop_middle l n word Hn) at 1.
  rewrite delete_take_drop, !fit_count_app.
  unfold fit_count at 2. rewrite filter_cons.
  fold (fit_count rack (drop (S n) l)).
  destruct (decide (fits rack word = true)) as [Hd|Hd].
  - rewrite Hd. simpl. fold (fit_count rack (drop (S n) l)). lia.
  - destruct (fits rack word); [congruence|].
    fold (fit_count rack (drop (S n) l)). lia.
Qed.

(** The blocks of the loop are the list of words, cut at every thousand. *)
Lemma blocks_take (l : list string) (b m : nat) :
  ((fun i => 0 + i * b) <$> seq 0 m) ≫= (fun x => slice x (x + b) l)
  = take (m * b) l.
Proof.
  induction m as [|m IH]; [reflexivity|].
  rewrite seq_S, fmap_app, bind_app, IH. simpl.
  rewrite app_nil_r. unfold slice.
  replace (m * b + b - m * b) with b by lia.
  rewrite take_take_drop. f_equal. lia.
Qed.

Lemma blocks_cover (l : list string) :
  xrange 0 (length l) Distributor.block_size
    ≫= (fun x => slice x (x + Distributor.block_size) l) = l.
Proof.
  unfold xrange. rewrite blocks_take. apply take_ge.
  pose proof (Nat.div_mod_eq (length l - 0 + Distributor.block_size - 1)
                Distributor.block_size) as Hd.
  pose proof (Nat.mod_upper_bound (length l - 0 + Distributor.block_size - 1)
                Distributor.block_size) as Hm.
  unfold Distributor.block_size in *. lia.
Qed.

Lemma insert_length (self self' : SortedCollection.t string) word :
  SortedCollection.insert key self word = Ok self' ->
  SortedCollection.__len__ self' = S (SortedCollection.__len__ self).
Proof.
  unfold SortedCollection.insert, SortedCollection.insert_keys.
  destruct (bisect_left _ _) as [e|i]; simpl; [discriminate|].
  intros [= <-]. unfold SortedCollection.__len__. simpl.
  apply length_insert_at.
Qed.

(** *** The invariant, step by step *)

Lemma main_step_invariant bound s s' :
  main_step s = Some s' -> invariant bound s -> invariant bound s'.
Proof.
  unfold main_step, invariant, potential, undistributed.
  intros Hstep (Hpot & Hdone & Hfin & Hlog).
  destruct (main_pc s) as [[|x xs]| |] eqn:Hpc.
  - injection Hstep as <-. simpl. repeat split; try discriminate.
    + exact Hpot.
    + intros ws Hws. specialize (Hlog ws Hws). discriminate Hlog.
  - injection Hstep as <-. simpl. rewrite bind_cons, fit_count_app in Hpot.
    rewrite fit_count_app. repeat split; try discriminate.
    + lia.
    + exact Hdone.
    + intros ws Hws. specialize (Hlog ws Hws). discriminate Hlog.
  - destruct (done s) eqn:Hd.
    + injection Hstep as <-. unfold finish. simpl. rewrite Hd.
      repeat split; auto.
    + destruct (_ && _) eqn:Hcond; injection Hstep as <-; simpl.
      * rewrite !andb_true_iff in Hcond. destruct Hcond as [[Hlen _] _].
        apply bool_decide_eq_true in Hlen.
        repeat split; try discriminate; auto.
      * rewrite Hpc, Hd. repeat split; try discriminate; auto.
  - discriminate Hstep.
Qed.

Lemma work_step_invariant bound n l s s' :
  work_step n l s = Some s' -> invariant bound s -> invariant bound s'.
Proof.
  unfold work_step, invariant, potential, undistributed.
  intros Hstep (Hpot & Hdone & Hfin & Hlog).
  destruct (pending s !! n) as [word|] eqn:Hn; [|discriminate].
  destruct (sub_letters l (letters s)) eqn:Hsub; [|discriminate].
  rewrite (fit_count_delete _ _ _ _ Hn) in Hpot.
  destruct (evaluator (word, l, results s)) as [e|[[r l'] q]] eqn:Hev;
    injection Hstep as <-; simpl.
  - repeat split; auto. lia.
  - repeat split; auto.
    destruct (evaluator_queue _ _ _ _ _ _ Hev) as [->|[-> Hc]]; [lia|].
    rewrite length_app. simpl.
    rewrite fits_count in Hpot; [lia|].
    intros c. pose proof (sub_letters_count _ _ Hsub c). specialize (Hc c). lia.
Qed.

Lemma collect_step_invariant bound s s' :
  collect_step s = Some s' -> invariant bound s -> invariant bound s'.
Proof.
  unfold collect_step, invariant, potential, undistributed.
  intros Hstep (Hpot & Hdone & Hfin & Hlog).
  destruct (results s) as [|word q] eqn:Hq.
  - injection Hstep as <-. rewrite Hq. auto.
  - destruct (SortedCollection.insert key (best_words s) word) as [e|best] eqn:Hins;
      [discriminate|].
    apply insert_length in Hins. injection Hstep as <-. simpl in *.
    rewrite Hins. repeat split; auto; [lia|].
    intros Hd. specialize (Hdone Hd). lia.
Qed.

Lemma percent_step_invariant bound s s' :
  percent_step s = Some s' -> invariant bound s -> invariant bound s'.
Proof.
  unfold percent_step, invariant, potential, undistributed.
  intros Hstep (Hpot & Hdone & Hfin & Hlog).
  destruct (complete s) as [|v c]; [discriminate|].
  injection Hstep as <-. simpl. repeat split; auto.
  intros ws Hws. apply elem_of_app in Hws as [Hws|Hws]; [exact (Hlog ws Hws)|].
  apply list_elem_of_singleton in Hws. discriminate Hws.
Qed.

Lemma top_step_invariant bound s s' :
  top_step s = Some s' -> invariant bound s -> invariant bound s'.
Proof.
  unfold top_step, invariant, potential, undistributed.
  intros Hstep (Hpot & Hdone & Hfin & Hlog).
  destruct (ReporterFacts.top_words_iter_cases (best_words s) (top s)) as [Hr|Hr];
    rewrite Hr in Hstep; injection Hstep as <-; simpl.
  - repeat split; auto.
    intros ws Hws. apply elem_of_app in Hws as [Hws|Hws]; [exact (Hlog ws Hws)|].
    apply list_elem_of_singleton in Hws. discriminate Hws.
  - rewrite app_nil_r. repeat split; auto.
Qed.

Lemma step_invariant bound s a s' :
  a <> Interrupt -> step s a = Some s' ->
  invariant bound s -> invariant bound s'.
Proof.
  intros Ha. unfold step.
  destruct (main_pc s); [| |discriminate];
    destruct a; try contradiction;
    eauto using main_step_invariant, work_step_invariant,
      collect_step_invariant, percent_step_invariant, top_step_invariant.
Qed.

Lemma run_invariant bound schedule : forall s s',
  Forall (fun a => a <> Interrupt) schedule ->
  run s schedule = Some s' ->
  invariant bound s -> invariant bound s'.
Proof.
  induction schedule as [|a schedule IH]; intros s s' Hq Hrun Hinv; simpl in Hrun.
  - injection Hrun as <-. exact Hinv.
  - apply Forall_cons in Hq as [Ha Hq].
    destruct (step s a) as [s1|] eqn:Hstep; [|discriminate].
    eapply IH; eauto using step_invariant.
Qed.

(** The state in which [main] starts the pipeline. *)
Lemma main_invariant argv dictionary records s0 :
  main argv dictionary = (records, Some s0) ->
  invariant (fit_count (letters s0) (words s0)) s0.
Proof.
  unfold main. destruct (decide (1 < length argv)); [|discriminate].
  destruct (argv !! 1) as [[|a rest]|]; try discriminate.
  intros [= <- <-]. unfold invariant, potential, undistributed. simpl.
  rewrite blocks_cover. repeat split; try discriminate.
  - reflexivity.
  - intros ws Hws.
    repeat (apply elem_of_cons in Hws as [Hws|Hws]; [discriminate Hws|]).
    apply elem_of_nil in Hws. contradiction.
Qed.

(** With fewer than two words to collect the flag [done] is never set. *)
Lemma invariant_not_done bound s :
  bound < 2 -> invariant bound s ->
  done s = false /\ main_pc s <> Finished /\ (forall ws, BestWords ws ∉ log s).
Proof.
  intros Hb (Hpot & Hdone & Hfin & Hlog). unfold potential in Hpot.
  assert (Hd : done s = false).
  { destruct (done s); [|reflexivity]. specialize (Hdone eq_refl). lia. }
  assert (Hpc : main_pc s <> Finished).
  { intros Hpc. specialize (Hfin Hpc). congruence. }
  repeat split; auto. intros ws Hws. apply Hpc, (Hlog ws Hws).
Qed.

(** The main thread can always take its next step: it is never stuck, it
    polls. *)
Lemma main_step_enabled s : main_pc s <> Finished -> is_Some (step s Main).
Proof.
  intros Hpc. unfold step, main_step.
  destruct (main_pc s) as [[|x xs]| |]; try congruence; eauto.
  destruct (done s); eauto. destruct (_ && _); eauto.
Qed.

(** C8, as the loop has it: when fewer than two words of the dictionary
    can be spelled with the rack, then whatever the schedule of the threads
    and of the workers, as long as no interrupt arrives, [done] is never
    set, the main thread never leaves its loop, the best-words record is
    never logged, and the main thread can poll once more. *)
Theorem polling_never_completes
    (argv dictionary : list string) (records : list log_record)
    (s0 s : state) (schedule : list action) :
  main argv dictionary = (records, Some s0) ->
  fit_count (letters s0) (words s0) < 2 ->
  Forall (fun a => a <> Interrupt) schedule ->
  run s0 schedule = Some s ->
  done s = false /\ main_pc s <> Finished /\
  (forall ws, BestWords ws ∉ log s) /\ is_Some (step s Main).
Proof.
  intros Hmain Hfit Hquiet Hrun.
  pose proof (run_invariant _ _ _ _ Hquiet Hrun (main_invariant _ _ _ _ Hmain))
    as Hinv.
  destruct (invariant_not_done _ _ Hfit Hinv) as (Hd & Hpc & Hlog).
  repeat split; auto. apply main_step_enabled, Hpc.
Qed.

(** An instance: the rack [zzz], a dictionary of the one line [at], and a
    schedule in which the block is submitted and evaluated, the sample
    reported, and the main thread polls three times. *)
Lemma polling_never_completes_witness :
  exists records s0 s,
    main ["pyletterpress.py"; "zzz"] [Dictionary.line "at"] = (records, Some s0) /\
    run s0 [Main; Main; Work 0 (chars "zzz"); Percent; Collect; TopPrint;
            Main; Main; Main] = Some s /\
    done s = false /\ main_pc s <> Finished /\
    (forall ws, BestWords ws ∉ log s) /\ is_Some (step s Main).
Proof.
  eexists _, _, _.
  split; [vm_compute; reflexivity|]. split; [vm_compute; reflexivity|].
  eapply (polling_never_completes ["pyletterpress.py"; "zzz"] [Dictionary.line "at"]
            _ _ _ [Main; Main; Work 0 (chars "zzz"); Percent; Collect; TopPrint;
                   Main; Main; Main]).
  - vm_compute. reflexivity.
  - vm_compute. lia.
  - repeat constructor; discriminate.
  - vm_compute. reflexivity.
Defined.

(** With two words to collect the loop does end: the rack [tea], the lines
    [at] and [ta], every step taken in turn. *)
Example pipeline_can_finish :
  exists records s0 s,
    main ["pyletterpress.py"; "tea"] [Dictionary.line "at"; Dictionary.line "ta"]
      = (records, Some s0) /\
    run s0 [Main; Main; Work 0 (chars "tea"); Work 0 (chars "tea");
            Collect; Collect; Percent; TopPrint; Main; Main] = Some s /\
    main_pc s = Finished /\
    (exists ws, last (log s) = Some (BestWords ws) /\ length ws = 2).
Proof.
  eexists _, _, _.
  split; [vm_compute; reflexivity|]. split; [vm_compute; reflexivity|].
  split; [reflexivity|]. eexists. split; reflexivity.
Qed.

(** C9: with the empty string as the one argument nothing is logged and the
    pipeline is not started; the record for missing letters is logged when
    there is no argument. *)
Theorem empty_letters_silent (prog : string) (dictionary : list string) :
  main [prog; ""] dictionary = ([], None) /\
  main [prog] dictionary = ([NoLettersSupplied], None).
Proof. split; reflexivity. Qed.

End PipelineFacts.

(** ** More of [SortedCollection]: searching *)

Module SortedCollectionSearch.
Import SortedCollection SortedCollectionFacts.
Section Search.
Context {item : Type} `{!EqDecision item}.
Context (key : item -> nat) (item_lt : item -> item -> bool).

Lemma item_in_elem (x : item) (l : list item) : item_in x l = true <-> x ∈ l.
Proof.
  induction l as [|y l IH]; simpl.
  - rewrite elem_of_nil. split; [discriminate | tauto].
  - rewrite elem_of_cons. destruct (decide (y = x)) as [->|Hne]; [tauto|].
    rewrite IH. split; [auto | intros [->|H]; [contradiction | exact H]].
Qed.

Lemma count_of_app (x : item) (l1 l2 : list item) :
  count_of x (l1 ++ l2) = count_of x l1 + count_of x l2.
Proof.
  induction l1 as [|y l1 IH]; simpl; [reflexivity|].
  destruct (decide (y = x)); simpl; rewrite IH; reflexivity.
Qed.

Lemma count_of_not_elem (x : item) (l : list item) : x ∉ l -> count_of x l = 0.
Proof.
  induction l as [|y l IH]; simpl; [reflexivity|]. intros Hx.
  apply not_elem_of_cons in Hx as [Hne Hx].
  destruct (decide (y = x)); [congruence | auto].
Qed.

Lemma lookup_slice_lt {A : Type} (a b m : nat) (l : list A) :
  m < b - a -> slice a b l !! m = l !! (a + m).
Proof.
  intros Hm. unfold slice. rewrite lookup_take_lt by exact Hm.
  apply lookup_drop.
Qed.

Lemma length_slice {A : Type} (a b : nat) (l : list A) :
  b <= length l -> length (slice a b l) = b - a.
Proof. intros Hb. unfold slice. rewrite length_take, length_drop. lia. Qed.

Lemma slice_split {A : Type} (a b : nat) (l : list A) :
  a <= b -> l = take a l ++ slice a b l ++ drop b l.
Proof.
  intros Hab. unfold slice.
  rewrite <- (take_drop a l) at 1. f_equal.
  rewrite <- (take_drop (b - a) (drop a l)) at 1. f_equal.
  rewrite drop_drop. f_equal. lia.
Qed.

(** The two searches of a key [k] cut a sorted collection into the items
    with a smaller key, the items with the key [k], and the items with a
    larger key. *)
Lemma key_range (self : t item) (k : nat) :
  keys_cached key self -> sort_invariant key self ->
  exists a b,
    bisect_left (_keys self) k = Ok a /\ bisect_right (_keys self) k = Ok b /\
    a <= b /\ b <= length (_items self) /\
    (forall p y, _items self !! p = Some y ->
       (p < a <-> key y < k) /\ (p < b <-> key y <= k)).
Proof.
  intros Hc Hs. apply sort_invariant_keys in Hs as Hk. rewrite <- Hc in Hk.
  destruct (bisect_left_spec (_keys self) k Hk) as (a & Ha & Hla & Hal & Har).
  destruct (bisect_right_spec (_keys self) k Hk) as (b & Hb & Hlb & Hbl & Hbr).
  assert (Hlen : length (_keys self) = length (_items self))
    by (rewrite Hc, length_fmap; reflexivity).
  exists a, b. split; [exact Ha|]. split; [exact Hb|].
  split.
  { destruct (decide (a <= b)) as [|Hba]; [assumption|]. exfalso.
    destruct (lookup_lt_is_Some_2 (_keys self) b) as [v Hv]; [lia|].
    pose proof (Hal b v ltac:(lia) Hv). pose proof (Hbr b v ltac:(lia) Hv). lia. }
  split; [lia|]. intros p y Hp.
  assert (Hkp : _keys self !! p = Some (key y))
    by (rewrite Hc, list_lookup_fmap, Hp; reflexivity).
  split; split; intros H.
  - exact (Hal p _ H Hkp).
  - destruct (decide (p < a)); [assumption|].
    pose proof (Har p _ ltac:(lia) Hkp). lia.
  - exact (Hbl p _ H Hkp).
  - destruct (decide (p < b)); [assumption|].
    pose proof (Hbr p _ ltac:(lia) Hkp). lia.
Qed.

(** Every occurrence of an item lies in the slice of its key. *)
Lemma elem_key_slice (self : t item) (x : item) a b :
  a <= b -> b <= length (_items self) ->
  (forall p y, _items self !! p = Some y ->
     (p < a <-> key y < key x) /\ (p < b <-> key y <= key x)) ->
  (x ∉ take a (_items self)) /\ (x ∉ drop b (_items self)) /\
  (x ∈ slice a b (_items self) <-> x ∈ _items self).
Proof.
  intros Hab Hb Hr.
  assert (H1 : x ∉ take a (_items self)).
  { intros H. apply elem_of_take in H as (p & Hp & Hlt).
    destruct (Hr p x Hp) as [[H _] _]. specialize (H Hlt). lia. }
  assert (H2 : x ∉ drop b (_items self)).
  { intros H. apply list_elem_of_lookup_1 in H as [p Hp].
    rewrite lookup_drop in Hp.
    destruct (Hr _ x Hp) as [_ [_ H]]. specialize (H ltac:(lia)). lia. }
  split; [exact H1|]. split; [exact H2|].
  rewrite (slice_split a b (_items self) Hab) at 2.
  rewrite !elem_of_app. tauto.
Qed.

(** X1: on a collection a program can hold, [item in collection] is
    membership in the items, although only the slice of the items with the
    key of [item] is scanned. *)
Theorem contains_spec (self : t item) (x : item) :
  reachable key item_lt self ->
  __contains__ key self x = Ok (bool_decide (x ∈ _items self)).
Proof.
  intros Hr. destruct (reachable_invariant key item_lt self Hr) as [Hc Hs].
  destruct (key_range self (key x) Hc Hs) as (a & b & Ha & Hb & Hab & Hlen & Hrange).
  destruct (elem_key_slice self x a b Hab Hlen Hrange) as (_ & _ & Hin).
  unfold __contains__. rewrite Ha. simpl. rewrite Hb. simpl. f_equal.
  destruct (item_in x (slice a b (_items self))) eqn:Hi.
  - symmetry. apply bool_decide_eq_true, Hin, item_in_elem, Hi.
  - symmetry. apply bool_decide_eq_false. intros Hx.
    apply Hin, item_in_elem in Hx. congruence.
Qed.

(** X2: [count] is the number of occurrences of the item among all the
    items. *)
Theorem count_spec (self : t item) (x : item) :
  reachable key item_lt self ->
  count key self x = Ok (count_of x (_items self)).
Proof.
  intros Hr. destruct (reachable_invariant key item_lt self Hr) as [Hc Hs].
  destruct (key_range self (key x) Hc Hs) as (a & b & Ha & Hb & Hab & Hlen & Hrange).
  destruct (elem_key_slice self x a b Hab Hlen Hrange) as (H1 & H2 & _).
  unfold count. rewrite Ha. simpl. rewrite Hb. simpl. f_equal.
  rewrite (slice_split a b (_items self) Hab) at 2.
  rewrite !count_of_app, (count_of_not_elem _ _ H1), (count_of_not_elem _ _ H2).
  lia.
Qed.

Lemma index_of_first (x : item) (l : list item) n :
  index_of x l = Ok n ->
  l !! n = Some x /\ forall m, m < n -> l !! m <> Some x.
Proof.
  revert n. induction l as [|y l IH]; intros n; simpl; [discriminate|].
  destruct (decide (y = x)) as [->|Hne].
  - intros [= <-]. split; [reflexivity | intros m Hm; lia].
  - destruct (index_of x l) as [e|k]; simpl; [discriminate|].
    intros [= <-]. destruct (IH k eq_refl) as [Hk Hfirst].
    split; [exact Hk|]. intros [|m] Hm; simpl.
    + congruence.
    + apply Hfirst. lia.
Qed.

Lemma index_of_not_elem (x : item) (l : list item) :
  x ∉ l -> index_of x l = Raise ValueError.
Proof.
  induction l as [|y l IH]; simpl; [reflexivity|]. intros Hx.
  apply not_elem_of_cons in Hx as [Hne Hx].
  rewrite decide_False by congruence. rewrite (IH Hx). reflexivity.
Qed.

(** [index] on a collection a program can hold. *)
Lemma index_first_occurrence (self : t item) (x : item) :
  reachable key item_lt self ->
  (x ∈ _items self ->
   exists i, index key self x = Ok i /\ _items self !! i = Some x /\
             forall j, j < i -> _items self !! j <> Some x) /\
  (x ∉ _items self -> index key self x = Raise ValueError).
Proof.
  intros Hr. destruct (reachable_invariant key item_lt self Hr) as [Hc Hs].
  destruct (key_range self (key x) Hc Hs) as (a & b & Ha & Hb & Hab & Hlen & Hrange).
  destruct (elem_key_slice self x a b Hab Hlen Hrange) as (H1 & H2 & Hin).
  unfold index. rewrite Ha. simpl. rewrite Hb. simpl. split.
  - intros Hx. apply Hin in Hx.
    destruct (index_of_elem x _ Hx) as (n & Hn & _).
    destruct (index_of_first _ _ _ Hn) as [Hl Hfirst].
    rewrite Hn. simpl. exists (n + a). split; [reflexivity|].
    assert (Hnb : n < b - a).
    { apply lookup_lt_Some in Hl. rewrite length_slice in Hl; assumption. }
    rewrite lookup_slice_lt in Hl by exact Hnb.
    split; [rewrite Nat.add_comm; exact Hl|].
    intros j Hj Hjx. destruct (decide (j < a)) as [Hja|Hja].
    + destruct (Hrange j x Hjx) as [[H _] _]. specialize (H Hja). lia.
    + apply (Hfirst (j - a)); [lia|].
      rewrite lookup_slice_lt by lia. rewrite <- Hjx. f_equal. lia.
  - intros Hx. rewrite index_of_not_elem; [reflexivity|].
    intros H. apply Hx, Hin, H.
Qed.

(** X3: [index] returns the position of the first occurrence of the item,
    and raises [ValueError] exactly when the item is not in the
    collection. *)
Theorem index_spec (self : t item) (x : item) :
  reachable key item_lt self ->
  (x ∈ _items self ->
   exists i, index key self x = Ok i /\ _items self !! i = Some x /\
             forall j, j < i -> _items self !! j <> Some x) /\
  (x ∉ _items self -> index key self x = Raise ValueError).
Proof. apply index_first_occurrence. Qed.

(** *** Where [insert] and [insert_right] put the item *)

Lemma insert_at_Permutation {A : Type} (i : nat) (x : A) (l : list A) :
  list_insert_at i x l ≡ₚ x :: l.
Proof.
  unfold list_insert_at. rewrite <- Permutation_middle, take_drop. reflexivity.
Qed.

Lemma delete_insert_at {A : Type} (i : nat) (x : A) (l : list A) :
  i <= length l -> delete i (list_insert_at i x l) = l.
Proof.
  intros Hi. unfold list_insert_at. rewrite delete_take_drop.
  rewrite take_app_length' by (rewrite length_take; lia).
  replace (S i) with (length (take i l) + 1) by (rewrite length_take; lia).
  rewrite drop_app_add'; [|reflexivity]. simpl. rewrite drop_0.
  apply take_drop.
Qed.

(** X4: [insert] returns; the item sits before every item with an equal or
    larger key and after every item with a smaller key, the other items
    keep their order, and the collection has one more item. *)
Theorem insert_leftmost (self : t item) (x : item) :
  reachable key item_lt self ->
  exists i self',
    insert key self x = Ok self' /\
    _items self' = take i (_items self) ++ x :: drop i (_items self) /\
    _items self' !! i = Some x /\
    (forall j y, j < i -> _items self' !! j = Some y -> key y < key x) /\
    (forall j y, i < j -> _items self' !! j = Some y -> key x <= key y) /\
    _items self' ≡ₚ x :: _items self /\
    __len__ self' = S (__len__ self).
Proof.
  intros Hr. destruct (reachable_invariant key item_lt self Hr) as [Hc Hs].
  destruct (key_range self (key x) Hc Hs) as (a & b & Ha & Hb & Hab & Hlen & Hrange).
  exists a. unfold insert, insert_keys. rewrite Ha. simpl.
  eexists. split; [reflexivity|]. simpl.
  assert (Hal : a <= length (_items self)) by lia.
  split; [reflexivity|]. split.
  { rewrite lookup_insert_at by exact Hal.
    rewrite decide_False by lia. rewrite decide_True by reflexivity. reflexivity. }
  split.
  { intros j y Hj. rewrite lookup_insert_at by exact Hal.
    rewrite decide_True by exact Hj. intros Hy.
    destruct (Hrange j y Hy) as [[H _] _]. exact (H Hj). }
  split.
  { intros j y Hj. rewrite lookup_insert_at by exact Hal.
    rewrite !decide_False by lia. intros Hy.
    destruct (Hrange _ y Hy) as [[_ H] _].
    destruct (decide (key y < key x)) as [Hlt|]; [|lia].
    specialize (H Hlt). lia. }
  split; [apply insert_at_Permutation|].
  unfold __len__. simpl. apply length_insert_at.
Qed.

(** X5: [insert_right] returns; the item sits after every item with an
    equal or smaller key and before every item with a larger key. *)
Theorem insert_right_rightmost (self : t item) (x : item) :
  reachable key item_lt self ->
  exists i self',
    insert_right key self x = Ok self' /\
    _items self' = take i (_items self) ++ x :: drop i (_items self) /\
    _items self' !! i = Some x /\
    (forall j y, j < i -> _items self' !! j = Some y -> key y <= key x) /\
    (forall j y, i < j -> _items self' !! j = Some y -> key x < key y) /\
    _items self' ≡ₚ x :: _items self /\
    __len__ self' = S (__len__ self).
Proof.
  intros Hr. destruct (reachable_invariant key item_lt self Hr) as [Hc Hs].
  destruct (key_range self (key x) Hc Hs) as (a & b & Ha & Hb & Hab & Hlen & Hrange).
  exists b. unfold insert_right, insert_right_keys. rewrite Hb. simpl.
  eexists. split; [reflexivity|]. simpl.
  split; [reflexivity|]. split.
  { rewrite lookup_insert_at by exact Hlen.
    rewrite decide_False by lia. rewrite decide_True by reflexivity. reflexivity. }
  split.
  { intros j y Hj. rewrite lookup_insert_at by exact Hlen.
    rewrite decide_True by exact Hj. intros Hy.
    destruct (Hrange j y Hy) as [_ [H _]]. exact (H Hj). }
  split.
  { intros j y Hj. rewrite lookup_insert_at by exact Hlen.
    rewrite !decide_False by lia. intros Hy.
    destruct (Hrange _ y Hy) as [_ [_ H]].
    destruct (decide (key y <= key x)) as [Hle|]; [|lia].
    specialize (H Hle). lia. }
  split; [apply insert_at_Permutation|].
  unfold __len__. simpl. apply length_insert_at.
Qed.

(** [remove] on a collection a program can hold. *)
Lemma remove_first_occurrence (self : t item) (x : item) :
  reachable key item_lt self ->
  (x ∈ _items self ->
   exists i self',
     remove key self x = Ok self' /\
     _items self !! i = Some x /\
     (forall j, j < i -> _items self !! j <> Some x) /\
     _items self' = delete i (_items self) /\
     _keys self' = delete i (_keys self) /\
     _items self ≡ₚ x :: _items self') /\
  (x ∉ _items self -> remove key self x = Raise ValueError).
Proof.
  intros Hr. destruct (reachable_invariant key item_lt self Hr) as [Hc Hs].
  destruct (index_first_occurrence self x Hr) as [Hin Hout]. split.
  - intros Hx. destruct (Hin Hx) as (i & Hi & Hl & Hfirst).
    pose proof (lookup_lt_Some _ _ _ Hl) as Hlt.
    exists i. unfold remove, remove_keys, list_del. rewrite Hi. simpl.
    rewrite decide_True by (rewrite Hc, length_fmap; exact Hlt). simpl.
    rewrite decide_True by exact Hlt. simpl.
    eexists. split; [reflexivity|]. simpl.
    repeat split; auto. apply delete_Permutation, Hl.
  - intros Hx. unfold remove, remove_keys. rewrite (Hout Hx). reflexivity.
Qed.

(** X6: [remove] deletes the first occurrence of the item, from the keys
    and from the items, and raises [ValueError] exactly when the item is
    not in the collection. *)
Theorem remove_spec (self : t item) (x : item) :
  reachable key item_lt self ->
  (x ∈ _items self ->
   exists i self',
     remove key self x = Ok self' /\
     _items self !! i = Some x /\
     (forall j, j < i -> _items self !! j <> Some x) /\
     _items self' = delete i (_items self) /\
     _keys self' = delete i (_keys self) /\
     _items self ≡ₚ x :: _items self') /\
  (x ∉ _items self -> remove key self x = Raise ValueError).
Proof. apply remove_first_occurrence. Qed.

(** What [insert] returns, with the position the search gives. *)
Lemma insert_eq (self : t item) (x : item) :
  keys_cached key self -> sort_invariant key self ->
  exists a,
    a <= length (_items self) /\
    insert key self x =
      Ok {| _keys := list_insert_at a (key x) (_keys self);
            _items := list_insert_at a x (_items self) |} /\
    (forall j y, j < a -> _items self !! j = Some y -> key y < key x).
Proof.
  intros Hc Hs.
  destruct (key_range self (key x) Hc Hs) as (a & b & Ha & Hb & Hab & Hlen & Hrange).
  exists a. split; [lia|]. unfold insert, insert_keys. rewrite Ha. simpl.
  split; [reflexivity|]. intros j y Hj Hy.
  destruct (Hrange j y Hy) as [[H _] _]. exact (H Hj).
Qed.

(** X7: removing an item just inserted with [insert] gives the collection
    back, keys and items. *)
Theorem insert_remove (self : t item) (x : item) :
  reachable key item_lt self ->
  exists self1, insert key self x = Ok self1 /\ remove key self1 x = Ok self.
Proof.
  intros Hr. destruct (reachable_invariant key item_lt self Hr) as [Hc Hs].
  destruct (insert_eq self x Hc Hs) as (a & Hlen & Hins & Hbefore).
  eexists. split; [exact Hins|].
  set (self1 := {| _keys := list_insert_at a (key x) (_keys self);
                   _items := list_insert_at a x (_items self) |}).
  assert (Hr1 : reachable key item_lt self1) by (eapply reachable_insert; eauto).
  assert (Hxa : _items self1 !! a = Some x).
  { simpl. rewrite lookup_insert_at by exact Hlen.
    rewrite decide_False by lia. rewrite decide_True by reflexivity. reflexivity. }
  destruct (remove_first_occurrence self1 x Hr1) as [Hrem _].
  destruct Hrem as (i & self2 & Hrm & Hi & Hfirst & Hit2 & Hk2 & _).
  { eapply list_elem_of_lookup_2, Hxa. }
  assert (i = a) as ->.
  { destruct (decide (i < a)) as [Hlt|].
    - simpl in Hi. rewrite lookup_insert_at in Hi by exact Hlen.
      rewrite decide_True in Hi by exact Hlt.
      specialize (Hbefore i x Hlt Hi). lia.
    - destruct (decide (a < i)) as [Hgt|]; [|lia].
      exfalso. exact (Hfirst a Hgt Hxa). }
  rewrite Hrm. f_equal. destruct self as [ks its]. destruct self2 as [ks2 its2].
  simpl in *. subst ks2 its2.
  rewrite !delete_insert_at; [reflexivity | exact Hlen |].
  rewrite Hc, length_fmap. exact Hlen.
Qed.

(** *** The five [find] methods *)

Lemma getitem_lookup {A : Type} (l : list A) (i : nat) (x : A) :
  l !! i = Some x -> getitem l i = Ok x.
Proof. intros H. unfold getitem. rewrite H. reflexivity. Qed.

(** X8: [find] returns the first item whose key is [k], and raises
    [ValueError] exactly when no item has the key [k]. *)
Theorem find_spec (self : t item) (k : nat) :
  reachable key item_lt self ->
  match find self k with
  | Ok x => exists i, _items self !! i = Some x /\ key x = k /\
              forall j y, j < i -> _items self !! j = Some y -> key y < k
  | Raise e => e = ValueError /\ forall y, y ∈ _items self -> key y <> k
  end.
Proof.
  intros Hr. destruct (reachable_invariant key item_lt self Hr) as [Hc Hs].
  destruct (key_range self k Hc Hs) as (a & b & Ha & Hb & Hab & Hlen & Hrange).
  unfold find. rewrite Ha. simpl. unfold __len__.
  destruct (decide (a <> length (_items self))) as [Hne|Heq].
  - destruct (lookup_lt_is_Some_2 (_items self) a) as [y Hy]; [lia|].
    rewrite (getitem_lookup (_keys self) a (key y))
      by (rewrite Hc, list_lookup_fmap, Hy; reflexivity).
    simpl. destruct (Hrange a y Hy) as [Hlt Hle].
    destruct (decide (key y = k)) as [Hk|Hk].
    + rewrite (getitem_lookup _ _ _ Hy). exists a. repeat split; auto.
      intros j z Hj Hz. destruct (Hrange j z Hz) as [[H _] _]. exact (H Hj).
    + split; [reflexivity|]. intros z Hz Hzk.
      apply list_elem_of_lookup_1 in Hz as [p Hp].
      pose proof (Hrange p z Hp) as Hpz. lia.
  - split; [reflexivity|]. intros z Hz Hzk.
    apply list_elem_of_lookup_1 in Hz as [p Hp].
    pose proof (lookup_lt_Some _ _ _ Hp) as Hplen.
    destruct (Hrange p z Hp) as [[H _] _]. specialize (H ltac:(lia)). lia.
Qed.

(** X9: [find_le] returns the last item whose key is at most [k], and
    raises [ValueError] exactly when every key is above [k]. *)
Theorem find_le_spec (self : t item) (k : nat) :
  reachable key item_lt self ->
  match find_le self k with
  | Ok x => exists i, _items self !! i = Some x /\ key x <= k /\
              forall j y, i < j -> _items self !! j = Some y -> k < key y
  | Raise e => e = ValueError /\ forall y, y ∈ _items self -> k < key y
  end.
Proof.
  intros Hr. destruct (reachable_invariant key item_lt self Hr) as [Hc Hs].
  destruct (key_range self k Hc Hs) as (a & b & Ha & Hb & Hab & Hlen & Hrange).
  unfold find_le. rewrite Hb. simpl.
  destruct (decide (b <> 0)) as [Hne|Heq].
  - destruct (lookup_lt_is_Some_2 (_items self) (b - 1)) as [y Hy]; [lia|].
    rewrite (getitem_lookup _ _ _ Hy). exists (b - 1).
    destruct (Hrange _ y Hy) as [_ [Hle _]].
    repeat split; [exact Hy | apply Hle; lia |].
    intros j z Hj Hz. destruct (Hrange j z Hz) as [_ [_ H]].
    destruct (decide (key z <= k)) as [Hzk|]; [|lia].
    specialize (H Hzk). lia.
  - split; [reflexivity|]. intros z Hz.
    apply list_elem_of_lookup_1 in Hz as [p Hp].
    destruct (Hrange p z Hp) as [_ [_ H]].
    destruct (decide (key z <= k)) as [Hzk|]; [|lia].
    specialize (H Hzk). lia.
Qed.

(** X10: [find_lt] returns the last item whose key is below [k], and
    raises [ValueError] exactly when no key is below [k]. *)
Theorem find_lt_spec (self : t item) (k : nat) :
  reachable key item_lt self ->
  match find_lt self k with
  | Ok x => exists i, _items self !! i = Some x /\ key x < k /\
              forall j y, i < j -> _items self !! j = Some y -> k <= key y
  | Raise e => e = ValueError /\ forall y, y ∈ _items self -> k <= key y
  end.
Proof.
  intros Hr. destruct (reachable_invariant key item_lt self Hr) as [Hc Hs].
  destruct (key_range self k Hc Hs) as (a & b & Ha & Hb & Hab & Hlen & Hrange).
  unfold find_lt. rewrite Ha. simpl.
  destruct (decide (a <> 0)) as [Hne|Heq].
  - destruct (lookup_lt_is_Some_2 (_items self) (a - 1)) as [y Hy]; [lia|].
    rewrite (getitem_lookup _ _ _ Hy). exists (a - 1).
    destruct (Hrange _ y Hy) as [[Hlt _] _].
    repeat split; [exact Hy | apply Hlt; lia |].
    intros j z Hj Hz. destruct (Hrange j z Hz) as [[_ H] _].
    destruct (decide (key z < k)) as [Hzk|]; [|lia].
    specialize (H Hzk). lia.
  - split; [reflexivity|]. intros z Hz.
    apply list_elem_of_lookup_1 in Hz as [p Hp].
    destruct (Hrange p z Hp) as [[_ H] _].
    destruct (decide (key z < k)) as [Hzk|]; [|lia].
    specialize (H Hzk). lia.
Qed.

(** X11: [find_ge] returns the first item whose key is at least [k], and
    raises [ValueError] exactly when every key is below [k]. *)
Theorem find_ge_spec (self : t item) (k : nat) :
  reachable key item_lt self ->
  match find_ge self k with
  | Ok x => exists i, _items self !! i = Some x /\ k <= key x /\
              forall j y, j < i -> _items self !! j = Some y -> key y < k
  | Raise e => e = ValueError /\ forall y, y ∈ _items self -> key y < k
  end.
Proof.
  intros Hr. destruct (reachable_invariant key item_lt self Hr) as [Hc Hs].
  destruct (key_range self k Hc Hs) as (a & b & Ha & Hb & Hab & Hlen & Hrange).
  unfold find_ge. rewrite Ha. simpl. unfold __len__.
  destruct (decide (a <> length (_items self))) as [Hne|Heq].
  - destruct (lookup_lt_is_Some_2 (_items self) a) as [y Hy]; [lia|].
    rewrite (getitem_lookup _ _ _ Hy). exists a.
    destruct (Hrange _ y Hy) as [[_ Hlt] _].
    repeat split; [exact Hy | |].
    + destruct (decide (key y < k)) as [Hyk|]; [|lia]. specialize (Hlt Hyk). lia.
    + intros j z Hj Hz. destruct (Hrange j z Hz) as [[H _] _]. exact (H Hj).
  - split; [reflexivity|]. intros z Hz.
    apply list_elem_of_lookup_1 in Hz as [p Hp].
    pose proof (lookup_lt_Some _ _ _ Hp) as Hplen.
    destruct (Hrange p z Hp) as [[H _] _]. apply H. lia.
Qed.

(** X12: [find_gt] returns the first item whose key is above [k], and
    raises [ValueError] exactly when no key is above [k]. *)
Theorem find_gt_spec (self : t item) (k : nat) :
  reachable key item_lt self ->
  match find_gt self k with
  | Ok x => exists i, _items self !! i = Some x /\ k < key x /\
              forall j y, j < i -> _items self !! j = Some y -> key y <= k
  | Raise e => e = ValueError /\ forall y, y ∈ _items self -> key y <= k
  end.
Proof.
  intros Hr. destruct (reachable_invariant key item_lt self Hr) as [Hc Hs].
  destruct (key_range self k Hc Hs) as (a & b & Ha & Hb & Hab & Hlen & Hrange).
  unfold find_gt. rewrite Hb. simpl. unfold __len__.
  destruct (decide (b <> length (_items self))) as [Hne|Heq].
  - destruct (lookup_lt_is_Some_2 (_items self) b) as [y Hy]; [lia|].
    rewrite (getitem_lookup _ _ _ Hy). exists b.
    destruct (Hrange _ y Hy) as [_ [_ Hle]].
    repeat split; [exact Hy | |].
    + destruct (decide (key y <= k)) as [Hyk|]; [|lia]. specialize (Hle Hyk). lia.
    + intros j z Hj Hz. destruct (Hrange j z Hz) as [_ [H _]]. exact (H Hj).
  - split; [reflexivity|]. intros z Hz.
    apply list_elem_of_lookup_1 in Hz as [p Hp].
    pose proof (lookup_lt_Some _ _ _ Hp) as Hplen.
    destruct (Hrange p z Hp) as [_ [H _]]. apply H. lia.
Qed.

(** *** The constructor, [copy] and the reversed iteration *)

Lemma sorted_insert_Permutation {A : Type} (lt : A -> A -> bool) x (l : list A) :
  sorted_insert lt x l ≡ₚ x :: l.
Proof.
  induction l as [|y l IH]; simpl; [reflexivity|].
  destruct (lt y x); [|reflexivity].
  rewrite IH. apply Permutation_swap.
Qed.

Lemma sorted_Permutation {A : Type} (lt : A -> A -> bool) (l : list A) :
  sorted lt l ≡ₚ l.
Proof.
  induction l as [|x l IH]; simpl; [reflexivity|].
  rewrite sorted_insert_Permutation, IH. reflexivity.
Qed.

(** X13: the constructor keeps every item of the iterable, as often as it
    occurs there, and [copy] gives a sorted collection of the same items. *)
Theorem init_Permutation (iterable : list item) (self : t item) :
  _items (init key item_lt iterable) ≡ₚ iterable /\
  __len__ (init key item_lt iterable) = length iterable /\
  _items (copy key item_lt self) ≡ₚ _items self /\
  sort_invariant key (copy key item_lt self) /\
  __len__ (clear key item_lt self) = 0.
Proof.
  assert (H : forall l, _items (init key item_lt l) ≡ₚ l).
  { intros l. unfold init. simpl. rewrite sorted_Permutation.
    induction l as [|z l IH]; simpl; [reflexivity|]. rewrite IH. reflexivity. }
  split; [apply H|]. split; [unfold __len__; rewrite H; reflexivity|].
  split; [apply H|]. split; [apply init_invariant|]. reflexivity.
Qed.

Lemma rev_is_reverse {A : Type} (l : list A) : rev l = reverse l.
Proof. unfold reverse. apply rev_alt. Qed.

(** Read backwards, sorted items go from the largest key down. *)
Lemma reversed_nonincreasing (self : t item) (i j : nat) (x y : item) :
  sort_invariant key self -> i < j ->
  __reversed__ self !! i = Some x -> __reversed__ self !! j = Some y ->
  key y <= key x.
Proof.
  intros Hs Hij. unfold __reversed__. rewrite rev_is_reverse. intros Hx Hy.
  apply reverse_lookup_Some in Hx as [Hx Hi].
  apply reverse_lookup_Some in Hy as [Hy Hj].
  apply (Hs (length (_items self) - S j) (length (_items self) - S i)); auto.
  lia.
Qed.

(** X14: iterating a collection a program can hold in reverse gives the
    items from the largest key down. *)
Theorem reversed_descending (self : t item) (i j : nat) (x y : item) :
  reachable key item_lt self -> i < j ->
  __reversed__ self !! i = Some x -> __reversed__ self !! j = Some y ->
  key y <= key x.
Proof.
  intros Hr. destruct (reachable_invariant key item_lt self Hr) as [_ Hs].
  apply reversed_nonincreasing, Hs.
Qed.

End Search.

(** Instances, on the words [cat], [at] and [a] by length. *)

Lemma contains_spec_witness :
  let self := init len String.ltb ["cat"; "at"; "a"] in
  __contains__ len self "at" = Ok (bool_decide ("at" ∈ _items self)).
Proof.
  intros self. apply (contains_spec len String.ltb self "at"). apply reachable_init.
Defined.

Lemma count_spec_witness :
  let self := init len String.ltb ["cat"; "at"; "a"] in
  count len self "at" = Ok (count_of "at" (_items self)).
Proof.
  intros self. apply (count_spec len String.ltb self "at"). apply reachable_init.
Defined.

Lemma index_spec_witness :
  let self := init len String.ltb ["cat"; "at"; "a"] in
  ("at" ∈ _items self ->
   exists i, index len self "at" = Ok i /\ _items self !! i = Some "at" /\
             forall j, j < i -> _items self !! j <> Some "at") /\
  ("at" ∉ _items self -> index len self "at" = Raise ValueError).
Proof.
  intros self. apply (index_spec len String.ltb self "at"). apply reachable_init.
Defined.

Lemma insert_leftmost_witness :
  let self := init len String.ltb ["cat"; "at"; "a"] in
  exists i self',
    insert len self "ta" = Ok self' /\
    _items self' = take i (_items self) ++ "ta" :: drop i (_items self) /\
    _items self' !! i = Some "ta" /\
    (forall j y, j < i -> _items self' !! j = Some y -> len y < len "ta") /\
    (forall j y, i < j -> _items self' !! j = Some y -> len "ta" <= len y) /\
    _items self' ≡ₚ "ta" :: _items self /\
    __len__ self' = S (__len__ self).
Proof.
  intros self. apply (insert_leftmost len String.ltb self "ta"). apply reachable_init.
Defined.

Lemma insert_right_rightmost_witness :
  let self := init len String.ltb ["cat"; "at"; "a"] in
  exists i self',
    insert_right len self "ta" = Ok self' /\
    _items self' = take i (_items self) ++ "ta" :: drop i (_items self) /\
    _items self' !! i = Some "ta" /\
    (forall j y, j < i -> _items self' !! j = Some y -> len y <= len "ta") /\
    (forall j y, i < j -> _items self' !! j = Some y -> len "ta" < len y) /\
    _items self' ≡ₚ "ta" :: _items self /\
    __len__ self' = S (__len__ self).
Proof.
  intros self. apply (insert_right_rightmost len String.ltb self "ta").
  apply reachable_init.
Defined.

Lemma remove_spec_witness :
  let self := init len String.ltb ["cat"; "at"; "a"] in
  ("at" ∈ _items self ->
   exists i self',
     remove len self "at" = Ok self' /\
     _items self !! i = Some "at" /\
     (forall j, j < i -> _items self !! j <> Some "at") /\
     _items self' = delete i (_items self) /\
     _keys self' = delete i (_keys self) /\
     _items self ≡ₚ "at" :: _items self') /\
  ("at" ∉ _items self -> remove len self "at" = Raise ValueError).
Proof.
  intros self. apply (remove_spec len String.ltb self "at"). apply reachable_init.
Defined.

Lemma insert_remove_witness :
  let self := init len String.ltb ["cat"; "at"; "a"] in
  exists self1, insert len self "ta" = Ok self1 /\ remove len self1 "ta" = Ok self.
Proof.
  intros self. apply (insert_remove len String.ltb self "ta"). apply reachable_init.
Defined.

Lemma find_spec_witness :
  let self := init len String.ltb ["cat"; "at"; "a"] in
  match find self 2 with
  | Ok x => exists i, _items self !! i = Some x /\ len x = 2 /\
              forall j y, j < i -> _items self !! j = Some y -> len y < 2
  | Raise e => e = ValueError /\ forall y, y ∈ _items self -> len y <> 2
  end.
Proof.
  intros self. apply (find_spec len String.ltb self 2). apply reachable_init.
Defined.

Lemma find_le_spec_witness :
  let self := init len String.ltb ["cat"; "at"; "a"] in
  match find_le self 2 with
  | Ok x => exists i, _items self !! i = Some x /\ len x <= 2 /\
              forall j y, i < j -> _items self !! j = Some y -> 2 < len y
  | Raise e => e = ValueError /\ forall y, y ∈ _items self -> 2 < len y
  end.
Proof.
  intros self. apply (find_le_spec len String.ltb self 2). apply reachable_init.
Defined.

Lemma find_lt_spec_witness :
  let self := init len String.ltb ["cat"; "at"; "a"] in
  match find_lt self 2 with
  | Ok x => exists i, _items self !! i = Some x /\ len x < 2 /\
              forall j y, i < j -> _items self !! j = Some y -> 2 <= len y
  | Raise e => e = ValueError /\ forall y, y ∈ _items self -> 2 <= len y
  end.
Proof.
  intros self. apply (find_lt_spec len String.ltb self 2). apply reachable_init.
Defined.

Lemma find_ge_spec_witness :
  let self := init len String.ltb ["cat"; "at"; "a"] in
  match find_ge self 2 with
  | Ok x => exists i, _items self !! i = Some x /\ 2 <= len x /\
              forall j y, j < i -> _items self !! j = Some y -> len y < 2
  | Raise e => e = ValueError /\ forall y, y ∈ _items self -> len y < 2
  end.
Proof.
  intros self. apply (find_ge_spec len String.ltb self 2). apply reachable_init.
Defined.

Lemma find_gt_spec_witness :
  let self := init len String.ltb ["cat"; "at"; "a"] in
  match find_gt self 2 with
  | Ok x => exists i, _items self !! i = Some x /\ 2 < len x /\
              forall j y, j < i -> _items self !! j = Some y -> len y <= 2
  | Raise e => e = ValueError /\ forall y, y ∈ _items self -> len y <= 2
  end.
Proof.
  intros self. apply (find_gt_spec len String.ltb self 2). apply reachable_init.
Defined.

Lemma reversed_descending_witness :
  let self := init len String.ltb ["cat"; "at"; "a"] in
  len "at" <= len "cat".
Proof.
  intros self. apply (reversed_descending len String.ltb self 0 1 "cat" "at").
  - apply reachable_init.
  - lia.
  - vm_compute. reflexivity.
  - vm_compute. reflexivity.
Defined.

(** The searches at work on that collection. *)
Example find_examples :
  let self := init len String.ltb ["cat"; "at"; "a"; "ta"] in
  _items self = ["a"; "at"; "ta"; "cat"] /\
  find self 2 = Ok "at" /\ find self 4 = Raise ValueError /\
  find_le self 2 = Ok "ta" /\ find_le self 0 = Raise ValueError /\
  find_lt self 2 = Ok "a" /\ find_lt self 1 = Raise ValueError /\
  find_ge self 2 = Ok "at" /\ find_ge self 4 = Raise ValueError /\
  find_gt self 2 = Ok "cat" /\ find_gt self 3 = Raise ValueError /\
  __contains__ len self "ta" = Ok true /\ __contains__ len self "act" = Ok false /\
  index len self "ta" = Ok 2 /\ index len self "act" = Raise ValueError.
Proof. repeat split; vm_compute; reflexivity. Qed.

End SortedCollectionSearch.

(** ** More of the dictionary: what is loaded, and its order *)

Module DictionaryFacts.
Import Dictionary.

Lemma lower_char_not_upper a : is_upper (lower_char a) = false.
Proof. destruct a as [[] [] [] [] [] [] [] []]; reflexivity. Qed.

Lemma lower_char_fixed a : is_upper a = false -> lower_char a = a.
Proof. unfold lower_char. intros ->. reflexivity. Qed.

Lemma lower_char_space a : Ascii.is_space (lower_char a) = Ascii.is_space a.
Proof. destruct a as [[] [] [] [] [] [] [] []]; reflexivity. Qed.

Lemma chars_lower s : chars (lower s) = lower_char <$> chars s.
Proof. induction s as [|a s IH]; simpl; [reflexivity|]. f_equal. exact IH. Qed.

Lemma lower_lower s : lower (lower s) = lower s.
Proof.
  induction s as [|a s IH]; simpl; [reflexivity|].
  rewrite IH, (lower_char_fixed _ (lower_char_not_upper a)). reflexivity.
Qed.

Lemma len_lower s : len (lower s) = len s.
Proof. induction s as [|a s IH]; simpl; [reflexivity|]. f_equal. exact IH. Qed.

Lemma len_lstrip s : len (lstrip s) <= len s.
Proof.
  induction s as [|a s IH]; simpl; [lia|].
  destruct (Ascii.is_space a); simpl; lia.
Qed.

Lemma len_rstrip s : len (rstrip s) <= len s.
Proof.
  induction s as [|a s IH]; simpl; [lia|].
  destruct (rstrip s); [destruct (Ascii.is_space a)|]; simpl in *; lia.
Qed.

Lemma len_strip s : len (strip s) <= len s.
Proof.
  unfold strip. pose proof (len_rstrip (lstrip s)). pose proof (len_lstrip s). lia.
Qed.

(** The first character left by [lstrip] and the last one left by [rstrip]
    are not whitespace, and [rstrip] keeps the first character. *)
Lemma head_lstrip s a : head (chars (lstrip s)) = Some a -> Ascii.is_space a = false.
Proof.
  induction s as [|b s IH]; simpl; [discriminate|].
  destruct (Ascii.is_space b) eqn:Hb; [exact IH|]. simpl. intros [= <-]. exact Hb.
Qed.

Lemma last_rstrip s a : last (chars (rstrip s)) = Some a -> Ascii.is_space a = false.
Proof.
  induction s as [|b s IH]; simpl; [discriminate|].
  destruct (rstrip s) as [|c t] eqn:Hr.
  - destruct (Ascii.is_space b) eqn:Hb; simpl; [discriminate|].
    intros [= <-]. exact Hb.
  - simpl in *. exact IH.
Qed.

Lemma head_rstrip s a : head (chars (rstrip s)) = Some a -> head (chars s) = Some a.
Proof.
  destruct s as [|b s]; simpl; [discriminate|].
  destruct (rstrip s); [destruct (Ascii.is_space b)|]; simpl; [discriminate|auto..].
Qed.

Lemma lstrip_fixed s :
  (forall a, head (chars s) = Some a -> Ascii.is_space a = false) -> lstrip s = s.
Proof.
  destruct s as [|b s]; simpl; [reflexivity|]. intros H.
  rewrite (H b eq_refl). reflexivity.
Qed.

Lemma rstrip_fixed s :
  (forall a, last (chars s) = Some a -> Ascii.is_space a = false) -> rstrip s = s.
Proof.
  induction s as [|b s IH]; simpl; [reflexivity|]. intros H.
  destruct s as [|c s].
  - simpl. rewrite (H b eq_refl). reflexivity.
  - rewrite IH; [reflexivity|]. intros a Ha. apply H. exact Ha.
Qed.

Lemma head_lower s a :
  head (chars (lower s)) = Some a -> exists b, head (chars s) = Some b /\ a = lower_char b.
Proof. destruct s as [|b s]; simpl; [discriminate|]. intros [= <-]. eauto. Qed.

Lemma last_lower s a :
  last (chars (lower s)) = Some a -> exists b, last (chars s) = Some b /\ a = lower_char b.
Proof.
  rewrite chars_lower, fmap_last. destruct (last (chars s)) as [b|]; simpl;
    [|discriminate]. intros [= <-]. eauto.
Qed.

(** X15: every loaded word is in lower case, has no whitespace at either
    end, so that [lower] and [strip] leave it as it is, and is not longer
    than the rack. *)
Theorem load_normalised (dictionary : list string) (letters : list ascii) (w : string) :
  w ∈ load dictionary letters ->
  lower w = w /\ strip w = w /\
  Forall (fun a => is_upper a = false) (chars w) /\
  (forall a, head (chars w) = Some a -> Ascii.is_space a = false) /\
  (forall a, last (chars w) = Some a -> Ascii.is_space a = false) /\
  len w <= length letters.
Proof.
  intros Hw. apply elem_of_load in Hw as (l & _ & Hk & ->).
  assert (Hhead : forall a, head (chars (lower (strip l))) = Some a ->
                            Ascii.is_space a = false).
  { intros a Ha. apply head_lower in Ha as (b & Hb & ->).
    rewrite lower_char_space. unfold strip in Hb.
    apply head_rstrip in Hb. eapply head_lstrip, Hb. }
  assert (Hlast : forall a, last (chars (lower (strip l))) = Some a ->
                            Ascii.is_space a = false).
  { intros a Ha. apply last_lower in Ha as (b & Hb & ->).
    rewrite lower_char_space. unfold strip in Hb. eapply last_rstrip, Hb. }
  split; [apply lower_lower|]. split.
  { unfold strip at 1. rewrite (lstrip_fixed _ Hhead). apply rstrip_fixed, Hlast. }
  split.
  { rewrite chars_lower. apply Forall_fmap, Forall_forall.
    intros a _. apply lower_char_not_upper. }
  split; [exact Hhead|]. split; [exact Hlast|].
  unfold keep in Hk. apply andb_true_iff in Hk as [Hk _].
  apply Nat.leb_le in Hk. rewrite len_lower. pose proof (len_strip l). lia.
Qed.

(** An instance: the line [ At ] with spaces around it and the rack
    [cater]. *)
Lemma load_normalised_witness :
  let w := "at" in
  lower w = w /\ strip w = w /\
  Forall (fun a => is_upper a = false) (chars w) /\
  (forall a, head (chars w) = Some a -> Ascii.is_space a = false) /\
  (forall a, last (chars w) = Some a -> Ascii.is_space a = false) /\
  len w <= length (chars "cater").
Proof.
  intros w. apply (load_normalised [line " At "; line "CATERED"] (chars "cater") w).
  apply elem_of_load. exists (line " At ").
  split; [apply list_elem_of_here|]. split; vm_compute; reflexivity.
Defined.



End DictionaryFacts.

(** ** More of the matcher: what a call does to the letters *)

Module MatcherEffects.
Import Matcher.

Lemma count_app c l1 l2 : count c (l1 ++ l2) = count c l1 + count c l2.
Proof. unfold count. apply count_occ_app. Qed.

Lemma count_cons c x l :
  count c (x :: l) = (if decide (c = x) then 1 else 0) + count c l.
Proof.
  unfold count. simpl. destruct (ascii_dec x c) as [->|Hne].
  - rewrite decide_True by reflexivity. reflexivity.
  - rewrite decide_False by congruence. reflexivity.
Qed.

Lemma count_length l l' :
  (forall c, count c l = count c l') -> length l = length l'.
Proof.
  intros H. apply Permutation_length.
  apply (Permutation_count_occ ascii_dec). intros c. apply H.
Qed.

(** The letters popped are letters of the word, in order, and they are what
    the list has lost. *)
Lemma popped_counts word : forall letters taken letters',
  popped word letters = Ok (taken, letters') ->
  (forall c, count c letters = count c letters' + count c taken) /\
  sublist taken word.
Proof.
  induction word as [|x word IH]; intros letters taken letters'; simpl.
  - intros [= <- <-]. split; [intros c; unfold count; simpl; lia | constructor].
  - destruct (list_contains x letters) eqn:Hin.
    + destruct (index_pop_guarded _ _ Hin) as (i & l1 & Hi & Hp & Hc).
      rewrite Hi. simpl. rewrite Hp. simpl.
      destruct (popped word l1) as [e|[ys l2]] eqn:Hpop; simpl; [discriminate|].
      intros [= <- <-]. destruct (IH _ _ _ Hpop) as [Hcount Hsub].
      split; [|constructor; exact Hsub].
      intros c. rewrite (Hc c), (Hcount c), count_cons. lia.
    + intros Hpop. destruct (IH _ _ _ Hpop) as [Hcount Hsub].
      split; [exact Hcount | constructor; exact Hsub].
Qed.

Lemma sublist_full {A : Type} (l k : list A) :
  sublist l k -> length l = length k -> l = k.
Proof.
  induction 1 as [|x l k _ IH|x l k Hs _]; simpl; intros Hlen.
  - reflexivity.
  - f_equal. apply IH. lia.
  - apply sublist_length in Hs. lia.
Qed.

(** The effect of a call on the list and on the queue. *)
Lemma evaluator_effect (word : string) (letters letters' : list ascii)
    (q q' : queue) (r : option string) :
  evaluator (word, letters, q) = Ok (r, letters', q') ->
  (forall c, count c letters' <= count c letters) /\
  length letters' <= length letters /\
  ((r = Some word /\ q' = q ++ [word] /\
    (forall c, count c letters = count c letters' + count c (chars word)) /\
    length letters = length letters' + len word)
   \/ (r = None /\ q' = q)).
Proof.
  destruct (popped_spec (chars word) letters) as (taken & l1 & Hpop & _ & _).
  rewrite (evaluator_popped _ _ _ _ _ Hpop).
  destruct (popped_counts _ _ _ _ Hpop) as [Hcount Hsub].
  assert (Hlen : length letters = length l1 + length taken).
  { rewrite <- length_app. apply count_length. intros c.
    rewrite count_app. apply Hcount. }
  destruct (decide (length taken = len word)) as [Hfull|Hpart];
    intros [= <- <- <-].
  - split; [intros c; rewrite (Hcount c); lia|]. split; [lia|]. left.
    rewrite <- length_chars in Hfull.
    apply (sublist_full _ _ Hsub) in Hfull. subst taken.
    rewrite length_chars in Hlen. auto.
  - split; [intros c; rewrite (Hcount c); lia|]. split; [lia|]. right. auto.
Qed.

(** X17: a call of [evaluator] only takes letters out of the list it is
    given; when it returns the word, it has taken exactly the letters of
    the word and put the word on the queue; when it returns [None], the
    queue is as before, while the list may have lost letters. *)
Theorem evaluator_letters (word : string) (letters letters' : list ascii)
    (q q' : queue) (r : option string) :
  evaluator (word, letters, q) = Ok (r, letters', q') ->
  (forall c, count c letters' <= count c letters) /\
  length letters' <= length letters /\
  ((r = Some word /\ q' = q ++ [word] /\
    (forall c, count c letters = count c letters' + count c (chars word)) /\
    length letters = length letters' + len word)
   \/ (r = None /\ q' = q)).
Proof. apply evaluator_effect. Qed.

Lemma evaluator_letters_witness :
  (forall c, count c (chars "cs") <= count c (chars "cats")) /\
  length (chars "cs") <= length (chars "cats") /\
  ((Some "at" = Some "at" /\ ["at"] = [] ++ ["at"] /\
    (forall c, count c (chars "cats") = count c (chars "cs") + count c (chars "at")) /\
    length (chars "cats") = length (chars "cs") + len "at")
   \/ (Some "at" = None /\ ["at"] = [])).
Proof.
  apply (evaluator_letters "at" (chars "cats") (chars "cs") [] ["at"] (Some "at")).
  vm_compute. reflexivity.
Defined.

(** The words a batch returns, in order. *)
Lemma accepted_cons (r : option string) (rs : list (option string)) :
  omap id (r :: rs) = option_list r ++ omap id rs.
Proof. destruct r; reflexivity. Qed.

(** X18: a batch sharing one list of letters returns one result per word
    and puts on the queue the words it returns, in order; these words can
    be spelled together, each letter of the list used once, so what one
    word takes is not there for the next. *)
Theorem map_evaluator_shared (block : list string) (letters letters' : list ascii)
    (q q' : queue) (rs : list (option string)) :
  map_evaluator block letters q = Ok (rs, letters', q') ->
  length rs = length block /\
  q' = q ++ omap id rs /\
  sublist (omap id rs) block /\
  (forall c, count c letters' + count c (mjoin (chars <$> omap id rs))
             <= count c letters).
Proof.
  revert letters letters' q q' rs.
  induction block as [|word block IH]; intros letters letters' q q' rs;
    cbn [map_evaluator].
  - intros [= <- <- <-]. simpl. rewrite app_nil_r.
    repeat split; [constructor | intros c; unfold count; simpl; lia].
  - destruct (evaluator (word, letters, q)) as [e|[[r l1] q1]] eqn:Hev; simpl;
      [discriminate|].
    destruct (map_evaluator block l1 q1) as [e|[[rs' l2] q2]] eqn:Hmap; simpl;
      [discriminate|].
    intros [= <- <- <-]. destruct (IH _ _ _ _ _ Hmap) as (Hlen & Hq & Hsub & Hc).
    destruct (evaluator_effect _ _ _ _ _ _ Hev) as (Hle & _ & Hcase).
    split; [simpl; lia|]. rewrite accepted_cons.
    destruct Hcase as [(-> & -> & Hcount & _)|(-> & ->)].
    + change (option_list (Some word) ++ omap id rs') with (word :: omap id rs').
      split; [rewrite Hq, <- app_assoc; reflexivity|].
      split; [constructor; exact Hsub|].
      intros c.
      change (mjoin (chars <$> word :: omap id rs'))
        with (chars word ++ mjoin (chars <$> omap id rs')).
      rewrite count_app. specialize (Hc c). rewrite (Hcount c). lia.
    + change (option_list None ++ omap id rs') with (omap id rs').
      split; [exact Hq|]. split; [constructor; exact Hsub|].
      intros c. specialize (Hc c). specialize (Hle c). lia.
Qed.

Lemma map_evaluator_shared_witness :
  length [Some "at"; None] = length ["at"; "cat"] /\
  ["at"] = [] ++ omap id [Some "at"; None] /\
  sublist (omap id [Some "at"; None]) ["at"; "cat"] /\
  (forall c, count c (chars "s") + count c (mjoin (chars <$> omap id [Some "at"; None]))
             <= count c (chars "cats")).
Proof.
  apply (map_evaluator_shared ["at"; "cat"] (chars "cats") (chars "s") [] ["at"]
           [Some "at"; None]).
  vm_compute. reflexivity.
Defined.

End MatcherEffects.

(** ** More of the distributor and of the reporter *)

Module DistributorBlocks.
Import Distributor.

Lemma blocks_iterations (words : list string) (xs : list nat) :
  omap (fun e => match e with MapAsync b => Some b | PutComplete _ => None end)
       (xs ≫= iteration words)
  = (fun x => slice x (x + block_size) words) <$> xs.
Proof. induction xs as [|y xs IH]; simpl; [reflexivity|]. f_equal. exact IH. Qed.

Lemma join_fmap_bind {A B : Type} (f : A -> list B) (l : list A) :
  mjoin (f <$> l) = l ≫= f.
Proof. induction l as [|x l IH]; simpl; [reflexivity|]. f_equal. exact IH. Qed.

(** X19: the blocks submitted are the list of words cut in order: block
    [k] holds the words from position [1000 k] on, a thousand of them or
    what is left, at least one, and the blocks put end to end are the
    list. *)
Theorem blocks_partition (words : list string) (k : nat) (b : list string) :
  omap (fun e => match e with MapAsync b => Some b | PutComplete _ => None end)
       (distribute words) !! k = Some b ->
  b = take block_size (drop (k * block_size) words) /\
  length b = Nat.min block_size (length words - k * block_size) /\
  0 < length b /\
  mjoin (omap (fun e => match e with MapAsync b => Some b | PutComplete _ => None end)
              (distribute words)) = words.
Proof.
  unfold distribute. rewrite blocks_iterations, join_fmap_bind.
  rewrite list_lookup_fmap. intros Hk.
  destruct (xrange 0 (length words) block_size !! k) as [x|] eqn:Hx; [|discriminate].
  assert (Hlt : k < (length words + block_size - 1) / block_size).
  { rewrite <- DistributorFacts.length_xrange. eapply lookup_lt_Some, Hx. }
  rewrite DistributorFacts.lookup_xrange in Hx by exact Hlt. injection Hx as <-.
  injection Hk as <-. apply DistributorFacts.block_start_lt in Hlt.
  assert (Hb : slice (k * block_size) (k * block_size + block_size) words
               = take block_size (drop (k * block_size) words)).
  { unfold slice. f_equal. lia. }
  rewrite Hb. split; [reflexivity|].
  rewrite length_take, length_drop. split; [reflexivity|].
  split; [unfold block_size in *; lia|].
  apply PipelineFacts.blocks_cover.
Qed.

Lemma blocks_partition_witness :
  let words := replicate 2500 "ab" in
  let b := replicate 500 "ab" in
  b = take block_size (drop (2 * block_size) words) /\
  length b = Nat.min block_size (length words - 2 * block_size) /\
  0 < length b /\
  mjoin (omap (fun e => match e with MapAsync b => Some b | PutComplete _ => None end)
              (distribute words)) = words.
Proof.
  intros words b. apply (blocks_partition words 2 b). vm_compute. reflexivity.
Defined.

End DistributorBlocks.

Module ReporterTop.
Import Reporter.



End ReporterTop.

(** ** More of the pipeline: what is collected and what is reported *)

Module PipelineSound.
Import Matcher Pipeline.

Ltac split_sound :=
  unfold sound; refine (conj _ (conj _ (conj _ (conj _ (conj _ (conj _ _)))))).

Lemma percents_app l1 l2 : percents (l1 ++ l2) = percents l1 ++ percents l2.
Proof. unfold percents. apply omap_app. Qed.

Lemma insert_items (self self' : SortedCollection.t string) word :
  SortedCollection.insert key self word = Ok self' ->
  SortedCollection._items self' ≡ₚ word :: SortedCollection._items self.
Proof.
  unfold SortedCollection.insert, SortedCollection.insert_keys.
  destruct (bisect_left _ _) as [e|i]; simpl; [discriminate|].
  intros [= <-]. simpl. apply SortedCollectionSearch.insert_at_Permutation.
Qed.

(** A record that is not the best-words line adds none to the log. *)
Lemma log_snoc_sound (s : state) (records : list log_record) :
  main_pc s <> Finished ->
  (forall ws, BestWords ws ∉ records) ->
  (forall ws, BestWords ws ∈ log s ->
     main_pc s = Finished /\ ws = SortedCollection.__reversed__ (best_words s)) ->
  forall ws, BestWords ws ∈ log s ++ records -> False.
Proof.
  intros Hne Hrec Hlog ws H. apply elem_of_app in H as [H|H].
  - destruct (Hlog ws H) as [Hpc _]. contradiction.
  - exact (Hrec ws H).
Qed.

Lemma finish_sound rack words0 s records :
  main_pc s = Polling ->
  percents records = [] -> (forall ws, BestWords ws ∉ records) ->
  sound rack words0 s -> sound rack words0 (finish s records).
Proof.
  intros Hpc Hrec Hnb (Hl & Hw & Hr & Hf & Hfit & Hlog & Hper).
  unfold in_flight, undistributed, samples_to_come in *. rewrite Hpc in *.
  split_sound; unfold finish, in_flight, undistributed, samples_to_come; simpl.
  - exact Hl.
  - exact Hw.
  - exact Hr.
  - exact Hf.
  - exact Hfit.
  - intros ws H. split; [reflexivity|]. rewrite app_assoc in H.
    apply elem_of_app in H as [H|H].
    + exfalso. apply elem_of_app in H as [H|H].
      * destruct (Hlog ws H) as [Hfin _]. discriminate Hfin.
      * exact (Hnb ws H).
    + apply list_elem_of_singleton in H. congruence.
  - rewrite !percents_app, Hrec. simpl. rewrite app_nil_r. exact Hper.
Qed.

Lemma main_step_sound rack words0 s s' :
  main_step s = Some s' -> sound rack words0 s -> sound rack words0 s'.
Proof.
  intros Hstep Hs. unfold main_step in Hstep.
  destruct (main_pc s) as [[|x xs]| |] eqn:Hpc; [| | |discriminate].
  - injection Hstep as <-.
    destruct Hs as (Hl & Hw & Hr & Hf & Hfit & Hlog & Hper).
    unfold in_flight, undistributed, samples_to_come in *. rewrite Hpc in *.
    split_sound; unfold in_flight, undistributed, samples_to_come; simpl; auto.
    intros ws H. destruct (Hlog ws H) as [Hfin _]. discriminate Hfin.
  - injection Hstep as <-.
    destruct Hs as (Hl & Hw & Hr & Hf & Hfit & Hlog & Hper).
    unfold in_flight, undistributed, samples_to_come in *. rewrite Hpc in *.
    rewrite bind_cons in Hf. rewrite fmap_cons in Hper.
    split_sound; unfold in_flight, undistributed, samples_to_come; simpl; auto.
    + rewrite <- (app_assoc (pending s)). exact Hf.
    + intros ws H. destruct (Hlog ws H) as [Hfin _]. discriminate Hfin.
    + rewrite <- Hper, <- !app_assoc. reflexivity.
  - destruct (done s) eqn:Hd.
    + injection Hstep as <-. apply finish_sound; auto.
      intros ws H. apply elem_of_nil in H. exact H.
    + destruct (_ && _); injection Hstep as <-; [|exact Hs].
      destruct Hs as (Hl & Hw & Hr & Hf & Hfit & Hlog & Hper).
      unfold in_flight, undistributed, samples_to_come in *. rewrite Hpc in *.
      split_sound; unfold in_flight, undistributed, samples_to_come; simpl; auto.
Qed.

Lemma work_step_sound rack words0 n l s s' :
  main_pc s <> Finished ->
  work_step n l s = Some s' -> sound rack words0 s -> sound rack words0 s'.
Proof.
  unfold work_step. intros Hne Hstep (Hl & Hw & Hr & Hf & Hfit & Hlog & Hper).
  destruct (pending s !! n) as [word|] eqn:Hn; [|discriminate].
  destruct (sub_letters l (letters s)) eqn:Hsub; [|discriminate].
  pose proof (delete_Permutation _ _ _ Hn) as Hperm.
  assert (Hdel : delete n (pending s) ⊆+ pending s).
  { rewrite Hperm at 2. apply submseteq_cons. reflexivity. }
  assert (Hlog' : forall ws, BestWords ws ∈ log s ->
            main_pc s = Finished /\ ws = SortedCollection.__reversed__ (best_words s))
    by exact Hlog.
  unfold in_flight, undistributed, samples_to_come in *.
  assert (Hskip : forall q,
    SortedCollection._items (best_words s) ++ q ++ delete n (pending s)
      ++ match main_pc s with
         | Distributing xs =>
             xs ≫= (fun x => slice x (x + Distributor.block_size) (words s))
         | _ => []
         end
    ⊆+ SortedCollection._items (best_words s) ++ q ++ pending s
      ++ match main_pc s with
         | Distributing xs =>
             xs ≫= (fun x => slice x (x + Distributor.block_size) (words s))
         | _ => []
         end).
  { intros q. apply submseteq_skips_l, submseteq_skips_l, submseteq_skips_r, Hdel. }
  destruct (evaluator (word, l, results s)) as [e|[[r l'] q]] eqn:Hev;
    injection Hstep as <-.
  - split_sound; unfold in_flight, undistributed, samples_to_come; simpl; auto.
    eapply submseteq_trans; [apply Hskip | exact Hf].
  - destruct (PipelineFacts.evaluator_queue _ _ _ _ _ _ Hev) as [->|[-> Hc]].
    + split_sound; unfold in_flight, undistributed, samples_to_come; simpl; auto.
      eapply submseteq_trans; [apply Hskip | exact Hf].
    + split_sound; unfold in_flight, undistributed, samples_to_come; simpl; auto.
      * eapply submseteq_trans; [|exact Hf].
        apply submseteq_skips_l. rewrite <- !app_assoc.
        apply submseteq_skips_l. apply Permutation_submseteq. simpl.
        rewrite Hperm at 2. reflexivity.
      * rewrite app_assoc. apply Forall_app. split; [exact Hfit|].
        apply Forall_singleton. apply PipelineFacts.fits_count. intros c.
        pose proof (PipelineFacts.sub_letters_count _ _ Hsub c) as Hle.
        specialize (Hc c). rewrite <- Hl. lia.
Qed.

Lemma collect_step_sound rack words0 s s' :
  main_pc s <> Finished ->
  collect_step s = Some s' -> sound rack words0 s -> sound rack words0 s'.
Proof.
  unfold collect_step. intros Hne Hstep Hs.
  destruct (results s) as [|word q] eqn:Hq; [injection Hstep as <-; exact Hs|].
  destruct (SortedCollection.insert key (best_words s) word) as [e|best] eqn:Hins;
    [discriminate|].
  injection Hstep as <-. destruct Hs as (Hl & Hw & Hr & Hf & Hfit & Hlog & Hper).
  pose proof (insert_items _ _ _ Hins) as Hperm.
  unfold in_flight, undistributed, samples_to_come in *. rewrite Hq in *.
  split_sound; unfold in_flight, undistributed, samples_to_come; simpl; auto.
  - eapply SortedCollection.reachable_insert; eassumption.
  - rewrite Hperm. eapply submseteq_trans; [|exact Hf].
    apply Permutation_submseteq. simpl.
    rewrite <- Permutation_middle. reflexivity.
  - rewrite Hperm. simpl. rewrite Permutation_middle. exact Hfit.
  - intros ws H. destruct (Hlog ws H) as [Hfin _]. contradiction.
Qed.

Lemma percent_step_sound rack words0 s s' :
  main_pc s <> Finished ->
  percent_step s = Some s' -> sound rack words0 s -> sound rack words0 s'.
Proof.
  unfold percent_step. intros Hne Hstep (Hl & Hw & Hr & Hf & Hfit & Hlog & Hper).
  destruct (complete s) as [|v c] eqn:Hc; [discriminate|].
  injection Hstep as <-.
  unfold in_flight, undistributed, samples_to_come in *.
  split_sound; unfold in_flight, undistributed, samples_to_come; simpl; auto.
  - intros ws H. exfalso. eapply (log_snoc_sound s [PercentComplete v]); eauto.
    intros ws' H'. apply list_elem_of_singleton in H'. discriminate H'.
  - rewrite percents_app. simpl. rewrite <- Hper, <- !app_assoc. reflexivity.
Qed.

Lemma top_step_sound rack words0 s s' :
  main_pc s <> Finished ->
  top_step s = Some s' -> sound rack words0 s -> sound rack words0 s'.
Proof.
  unfold top_step. intros Hne Hstep (Hl & Hw & Hr & Hf & Hfit & Hlog & Hper).
  unfold in_flight, undistributed, samples_to_come in *.
  destruct (ReporterFacts.top_words_iter_cases (best_words s) (top s)) as [Ht|Ht];
    rewrite Ht in Hstep; injection Hstep as <-;
    split_sound; unfold in_flight, undistributed, samples_to_come; simpl; auto.
  - intros ws H. exfalso. eapply (log_snoc_sound s [_]); eauto.
    intros ws' H'. apply list_elem_of_singleton in H'. discriminate H'.
  - rewrite percents_app. simpl. rewrite app_nil_r. exact Hper.
  - rewrite app_nil_r. exact Hlog.
  - rewrite app_nil_r. exact Hper.
Qed.

Lemma step_sound rack words0 s a s' :
  step s a = Some s' -> sound rack words0 s -> sound rack words0 s'.
Proof.
  unfold step. intros Hstep Hs.
  assert (Hne : main_pc s <> Finished)
    by (intros Hpc; rewrite Hpc in Hstep; discriminate).
  assert (Hstep' : match a with
      | Main => main_step s
      | Work n l => work_step n l s
      | Collect => collect_step s
      | Percent => percent_step s
      | TopPrint => top_step s
      | Interrupt => interrupt_step s
      end = Some s') by (destruct (main_pc s); [exact Hstep..|congruence]).
  clear Hstep. destruct a.
  - eapply main_step_sound; eauto.
  - eapply work_step_sound; eauto.
  - eapply collect_step_sound; eauto.
  - eapply percent_step_sound; eauto.
  - eapply top_step_sound; eauto.
  - unfold interrupt_step in Hstep'.
    destruct (main_pc s) eqn:Hpc; try discriminate.
    injection Hstep' as <-. apply finish_sound; auto.
    intros ws H. apply list_elem_of_singleton in H. discriminate H.
Qed.

Lemma run_sound rack words0 schedule : forall s s',
  run s schedule = Some s' -> sound rack words0 s -> sound rack words0 s'.
Proof.
  induction schedule as [|a schedule IH]; intros s s' Hrun Hs; simpl in Hrun.
  - injection Hrun as <-. exact Hs.
  - destruct (step s a) as [s1|] eqn:Hstep; [|discriminate].
    eapply IH; eauto using step_sound.
Qed.

Lemma main_sound argv dictionary records s0 :
  main argv dictionary = (records, Some s0) ->
  sound (letters s0) (words s0) s0 /\
  words s0 = Dictionary.sort_words (Dictionary.load dictionary (letters s0)).
Proof.
  unfold main. destruct (decide (1 < length argv)); [|discriminate].
  destruct (argv !! 1) as [[|a rest]|]; try discriminate.
  intros [= <- <-]. split; [|reflexivity].
  split_sound; unfold in_flight, undistributed, samples_to_come; simpl; auto.
  - apply SortedCollection.reachable_init.
  - rewrite PipelineFacts.blocks_cover. reflexivity.
  - intros ws H. exfalso.
    repeat (apply elem_of_cons in H as [H|H]; [discriminate H|]).
    apply elem_of_nil in H. exact H.
  - unfold Distributor.samples, Distributor.distribute.
    rewrite DistributorFacts.samples_iterations. reflexivity.
Qed.

Lemma fits_true_count rack word :
  fits rack word = true -> forall c, count c (chars word) <= count c rack.
Proof.
  unfold fits. rewrite forallb_forall. intros H c.
  destruct (in_dec ascii_dec c (chars word)) as [Hin|Hnin].
  - apply Nat.leb_le, H, Hin.
  - unfold count. rewrite (proj1 (count_occ_not_In ascii_dec _ _) Hnin). lia.
Qed.

(** What a run gives, from [main] on. *)
Lemma run_main_sound argv dictionary records s0 schedule s :
  main argv dictionary = (records, Some s0) ->
  run s0 schedule = Some s ->
  sound (letters s0) (Dictionary.sort_words (Dictionary.load dictionary (letters s0))) s.
Proof.
  intros Hmain Hrun. destruct (main_sound _ _ _ _ Hmain) as [Hs Hw].
  rewrite <- Hw. eapply run_sound; eassumption.
Qed.

Lemma collected_sound argv dictionary records s0 schedule s :
  main argv dictionary = (records, Some s0) ->
  run s0 schedule = Some s ->
  NoDup (SortedCollection._items (best_words s)) /\
  SortedCollection.sort_invariant key (best_words s) /\
  forall w, w ∈ SortedCollection._items (best_words s) ->
    w ∈ Dictionary.load dictionary (letters s0) /\
    forall c, count c (chars w) <= count c (letters s0).
Proof.
  intros Hmain Hrun.
  destruct (run_main_sound _ _ _ _ _ _ Hmain Hrun)
    as (Hl & Hw & Hr & Hf & Hfit & Hlog & Hper).
  set (loaded := Dictionary.load dictionary (letters s0)) in *.
  assert (Hp : Dictionary.sort_words loaded ≡ₚ elements loaded)
    by apply SortedCollectionSearch.sorted_Permutation.
  assert (Hsub : SortedCollection._items (best_words s)
                 ⊆+ Dictionary.sort_words loaded).
  { eapply submseteq_trans; [|exact Hf]. unfold in_flight.
    apply submseteq_inserts_r. reflexivity. }
  split.
  { apply submseteq_Permutation in Hsub as [k Hk].
    assert (Hnd : NoDup (Dictionary.sort_words loaded))
      by (rewrite Hp; apply NoDup_elements).
    rewrite Hk in Hnd. apply NoDup_app in Hnd as [Hnd _]. exact Hnd. }
  split.
  { apply (SortedCollectionFacts.reachable_invariant key String.ltb), Hr. }
  intros w Hin. split.
  - apply elem_of_elements. rewrite <- Hp. eapply elem_of_submseteq; eassumption.
  - apply fits_true_count. rewrite Forall_forall in Hfit. apply Hfit.
    apply elem_of_app. left. exact Hin.
Qed.

(** X21: in every run, interrupted or not, the words collected are words of
    the loaded dictionary that the rack can spell, each collected once, and
    they are kept by length. *)
Theorem collected_words_sound
    (argv dictionary : list string) (records : list log_record)
    (s0 s : state) (schedule : list action) (w : string) :
  main argv dictionary = (records, Some s0) ->
  run s0 schedule = Some s ->
  w ∈ SortedCollection._items (best_words s) ->
  w ∈ Dictionary.load dictionary (letters s0) /\
  (forall c, count c (chars w) <= count c (letters s0)) /\
  NoDup (SortedCollection._items (best_words s)) /\
  SortedCollection.sort_invariant key (best_words s).
Proof.
  intros Hmain Hrun Hw.
  destruct (collected_sound _ _ _ _ _ _ Hmain Hrun) as (Hnd & Hs & Hall).
  destruct (Hall w Hw) as [Hload Hfit]. auto.
Qed.

Lemma collected_words_sound_witness :
  exists records s0 s,
    main ["pyletterpress.py"; "tea"] [Dictionary.line "at"; Dictionary.line "ox"]
      = (records, Some s0) /\
    run s0 [Main; Main; Work 0 (chars "tea"); Work 0 (chars "tea");
            Collect; Collect; Percent; TopPrint; Main] = Some s /\
    ("at" ∈ Dictionary.load [Dictionary.line "at"; Dictionary.line "ox"] (letters s0)) /\
    (forall c, count c (chars "at") <= count c (letters s0)) /\
    NoDup (SortedCollection._items (best_words s)) /\
    SortedCollection.sort_invariant key (best_words s).
Proof.
  eexists _, _, _.
  split; [vm_compute; reflexivity|]. split; [vm_compute; reflexivity|].
  eapply (collected_words_sound ["pyletterpress.py"; "tea"]
            [Dictionary.line "at"; Dictionary.line "ox"] _ _ _
            [Main; Main; Work 0 (chars "tea"); Work 0 (chars "tea");
             Collect; Collect; Percent; TopPrint; Main] "at").
  - vm_compute. reflexivity.
  - vm_compute. reflexivity.
  - vm_compute. apply list_elem_of_here.
Defined.

(** X22: the best-words line is logged when the main thread has finished,
    at most by then, and lists the collection read backwards: words of the
    dictionary that the rack can spell, no word twice, longest first. *)
Theorem best_words_report
    (argv dictionary : list string) (records : list log_record)
    (s0 s : state) (schedule : list action) (ws : list string) :
  main argv dictionary = (records, Some s0) ->
  run s0 schedule = Some s ->
  BestWords ws ∈ log s ->
  main_pc s = Finished /\
  ws = rev (SortedCollection._items (best_words s)) /\
  NoDup ws /\
  (forall w, w ∈ ws ->
     w ∈ Dictionary.load dictionary (letters s0) /\
     forall c, count c (chars w) <= count c (letters s0)) /\
  (forall i j x y, i < j -> ws !! i = Some x -> ws !! j = Some y -> len y <= len x).
Proof.
  intros Hmain Hrun Hws.
  destruct (collected_sound _ _ _ _ _ _ Hmain Hrun) as (Hnd & Hs & Hall).
  destruct (run_main_sound _ _ _ _ _ _ Hmain Hrun)
    as (_ & _ & _ & _ & _ & Hlog & _).
  destruct (Hlog ws Hws) as [Hfin ->].
  unfold SortedCollection.__reversed__.
  split; [exact Hfin|]. split; [reflexivity|].
  rewrite SortedCollectionSearch.rev_is_reverse. split.
  { rewrite reverse_Permutation. exact Hnd. }
  split.
  { intros w Hw. rewrite elem_of_reverse in Hw. apply Hall, Hw. }
  intros i j x y Hij Hx Hy.
  rewrite <- SortedCollectionSearch.rev_is_reverse in Hx, Hy.
  exact (SortedCollectionSearch.reversed_nonincreasing key (best_words s)
           i j x y Hs Hij Hx Hy).
Qed.

Lemma best_words_report_witness :
  exists records s0 s,
    main ["pyletterpress.py"; "tea"] [Dictionary.line "at"; Dictionary.line "tea"]
      = (records, Some s0) /\
    run s0 [Main; Main; Work 0 (chars "tea"); Collect; Interrupt] = Some s /\
    main_pc s = Finished /\
    ["at"] = rev (SortedCollection._items (best_words s)) /\
    NoDup ["at"] /\
    (forall w, w ∈ ["at"] ->
       w ∈ Dictionary.load [Dictionary.line "at"; Dictionary.line "tea"] (letters s0) /\
       forall c, count c (chars w) <= count c (letters s0)) /\
    (forall i j x y, i < j -> ["at"] !! i = Some x -> ["at"] !! j = Some y ->
                     len y <= len x).
Proof.
  eexists _, _, _.
  split; [vm_compute; reflexivity|]. split; [vm_compute; reflexivity|].
  eapply (best_words_report ["pyletterpress.py"; "tea"]
            [Dictionary.line "at"; Dictionary.line "tea"] _ _ _
            [Main; Main; Work 0 (chars "tea"); Collect; Interrupt] ["at"]).
  - vm_compute. reflexivity.
  - vm_compute. reflexivity.
  - vm_compute. repeat (first [apply list_elem_of_here | apply list_elem_of_further]).
Defined.

(** X23: the percentages logged are, in the order logged, the first samples
    that the distributor computes: none is lost, repeated or out of
    order. *)
Theorem percents_are_samples
    (argv dictionary : list string) (records : list log_record)
    (s0 s : state) (schedule : list action) :
  main argv dictionary = (records, Some s0) ->
  run s0 schedule = Some s ->
  exists rest,
    Distributor.samples (words s0) = percents (log s) ++ rest /\
    rest = complete s ++ samples_to_come s.
Proof.
  intros Hmain Hrun. destruct (main_sound _ _ _ _ Hmain) as [_ Hw].
  destruct (run_main_sound _ _ _ _ _ _ Hmain Hrun)
    as (_ & _ & _ & _ & _ & _ & Hper).
  exists (complete s ++ samples_to_come s). rewrite Hw, <- Hper. auto.
Qed.

Lemma percents_are_samples_witness :
  exists records s0 s,
    main ["pyletterpress.py"; "tea"] [Dictionary.line "at"; Dictionary.line "ox"]
      = (records, Some s0) /\
    run s0 [Main; Percent; Main; Work 0 (chars "tea")] = Some s /\
    exists rest,
      Distributor.samples (words s0) = percents (log s) ++ rest /\
      rest = complete s ++ samples_to_come s.
Proof.
  eexists _, _, _.
  split; [vm_compute; reflexivity|]. split; [vm_compute; reflexivity|].
  eapply (percents_are_samples ["pyletterpress.py"; "tea"]
            [Dictionary.line "at"; Dictionary.line "ox"] _ _ _
            [Main; Percent; Main; Work 0 (chars "tea")]).
  - vm_compute. reflexivity.
  - vm_compute. reflexivity.
Defined.

End PipelineSound.

(** ** The reporter inside a run *)

Module PipelineReporter.
Import Matcher Pipeline.











End PipelineReporter.
